(** * A shallow embedding of the CBOR reader of cardano-data-lite

    The reader ([parse] and the functions it dispatches to) turns a
    [Uint8Array] into a decoded item and the array that is left.  It is
    embedded here function by function, with the JavaScript behaviour the
    code relies on written out:

    - [stream[i]] past the end is [undefined]; [undefined & m] is [0],
      [undefined != 0xff] is [true], and [BigInt(undefined)] throws a
      [TypeError];
    - [slice] copies and clamps its bounds to the length of the array;
    - the [while] loops over a stream need not terminate, so the recursive
      functions take a fuel counter and answer [OutOfFuel] when it runs out. *)

From Stdlib Require Import ZArith Bool Lia.
From Stdlib Require Import Strings.Byte Strings.Ascii Strings.String.
From Stdlib Require Import Lists.List.
Import ListNotations.

Local Open Scope Z_scope.

(** ** Outcomes of a call *)

(** What a call can throw: a string ([throw "..."] in the source), or one of
    the two errors of the runtime the code can run into. *)
Inductive exn : Type :=
| Thrown (msg : string)
| TypeError
| RangeError.

Inductive result (A : Type) : Type :=
| Ok (a : A)
| Throw (e : exn)
| OutOfFuel.

Arguments Ok {A} a.
Arguments Throw {A} e.
Arguments OutOfFuel {A}.

Definition bind {A B : Type} (r : result A) (k : A -> result B) : result B :=
  match r with
  | Ok a => k a
  | Throw e => Throw e
  | OutOfFuel => OutOfFuel
  end.

Notation "x <- r ;; k" := (bind r (fun x => k))
  (at level 61, r at next level, right associativity).
Notation "' p <- r ;; k" := (bind r (fun x => let p := x in k))
  (at level 61, p pattern, r at next level, right associativity).

(** A call returned or threw: it did not run out of fuel. *)
Definition settled {A : Type} (r : result A) : Prop := r <> OutOfFuel.

(** ** Typed arrays and numbers *)

Definition Uint8Array : Type := list byte.

Definition byte_val (b : byte) : Z := Z.of_N (Byte.to_N b).

(** [stream[i]]: [None] stands for [undefined]. *)
Definition index (stream : Uint8Array) (i : nat) : option Z :=
  option_map byte_val (nth_error stream i).

(** [v & mask]: [undefined] converts to [0]. *)
Definition js_and (v : option Z) (mask : Z) : Z :=
  Z.land (match v with Some n => n | None => 0 end) mask.

(** [v != n] and [v === n] for a number [n]. *)
Definition js_neq (v : option Z) (n : Z) : bool :=
  match v with Some m => negb (m =? n) | None => true end.

Definition js_eq (v : option Z) (n : Z) : bool := negb (js_neq v n).

(** [stream.slice(start)] and [stream.slice(start, stop)] for bounds that
    are not negative, the only ones the reader passes. *)
Definition slice_from (start : Z) (stream : Uint8Array) : Uint8Array :=
  skipn (Z.to_nat start) stream.

Definition slice (start stop : Z) (stream : Uint8Array) : Uint8Array :=
  firstn (Z.to_nat stop - Z.to_nat start) (skipn (Z.to_nat start) stream).

(** [n.toString(16)] for a byte. *)
Definition hex_digit (d : Z) : ascii :=
  nth (Z.to_nat d)
      ["0"; "1"; "2"; "3"; "4"; "5"; "6"; "7";
       "8"; "9"; "a"; "b"; "c"; "d"; "e"; "f"]%char "0"%char.

Definition toString16 (n : Z) : string :=
  if n <? 16 then String (hex_digit n) EmptyString
  else String (hex_digit (n / 16)) (String (hex_digit (n mod 16)) EmptyString).

(** [Number(x)] for a bigint [x]: the double nearest to [x], ties to the
    even significand.  The double is an integer, so it is kept as a [Z].
    (Doubles overflow from 2^1024 on; the reader converts values below
    2^64.) *)
Definition bigintToNum (x : Z) : Z :=
  let a := Z.abs x in
  let e := Z.log2 a - 52 in
  if e <=? 0 then x
  else
    let q := Z.shiftr a e in
    let r := a - Z.shiftl q e in
    let half := 2 ^ (e - 1) in
    let q' := if (half <? r) || ((r =? half) && Z.odd q) then q + 1 else q in
    Z.sgn x * Z.shiftl q' e.

(** [i++] on a loop counter held in a double: 2^53 + 1 is not a double and
    rounds back to 2^53. *)
Definition num_incr (i : Z) : Z := if i <? 2 ^ 53 then i + 1 else i.

(** ** Decoded items *)

(** The tags of [CBORItem["type"]]. *)
Inductive item_type : Type :=
| Tuint | Tnint | Tbstr | Ttstr | Tarray | Tmap | Ttagged
| Tboolean | Tnull | Tundefined | Tfloat.

Definition type_name (t : item_type) : string :=
  match t with
  | Tuint => "uint" | Tnint => "nint" | Tbstr => "bstr" | Ttstr => "tstr"
  | Tarray => "array" | Tmap => "map" | Ttagged => "tagged"
  | Tboolean => "boolean" | Tnull => "null" | Tundefined => "undefined"
  | Tfloat => "float"
  end%string.

(** The size of a string: a width, or for an indefinite string the list of
    (chunk length, width) pairs. *)
Inductive str_size : Type :=
| Definite (width : Z)
| Chunked (sizes : list (Z * Z)).

(** The text [new TextDecoder().decode(bytes)] yields, named by the bytes it
    is decoded from; the decoder of the platform is not part of the
    repository. *)
Inductive text : Type :=
| TextDecoder_decode (bytes : Uint8Array).

(** The number [DataView.getFloat32] or [getFloat64] yields, named by the
    big-endian bytes it is read from. *)
Inductive number : Type :=
| getFloat32 (bytes : Uint8Array)
| getFloat64 (bytes : Uint8Array).

(** Modelled from the spec: the type [CBORItem] of the module [./model],
    which the reader imports; its variants and their fields follow the
    table of the data model and the object literals the reader builds. *)
#[local] Unset Elimination Schemes.
Inductive CBORItem : Type :=
| uint (size : Z) (value : Z)
| nint (size : Z) (value : Z)
| bstr (size : str_size) (value : Uint8Array)
| tstr (size : str_size) (value : text)
| array (size : option Z) (value : list CBORItem)
| map (size : option Z) (value : list (CBORItem * CBORItem))
| tagged (tag : Z) (value : CBORItem)
| boolean (value : bool)
| null
| undefined
| float (size : Z) (value : number).
#[local] Set Elimination Schemes.

(** ** The reader *)

(** [error(expected, received)]. *)
Definition expected_msg (expected : item_type) (received : Z) : string :=
  ("Expected " ++ type_name expected ++ ". Received: " ++ toString16 received)%string.

Definition error {A : Type} (expected : item_type) (received : option Z) : result A :=
  match received with
  | Some r => Throw (Thrown (expected_msg expected r))
  | None => Throw TypeError
  end.

Definition unknown_msg (received : Z) : string :=
  ("Unknown type byte: " ++ toString16 received)%string.

(** The [default] branch of [parse]. *)
Definition unknown_type_byte {A : Type} (received : option Z) : result A :=
  match received with
  | Some r => Throw (Thrown (unknown_msg r))
  | None => Throw TypeError
  end.

(** The additional information of a header is legal for a length. *)
Definition is_length (len : Z) : bool := (0x00 <=? len) && (len <=? 0x1b).

Fixpoint readBigInt_for (todo i : nat) (x : Z) (stream : Uint8Array) : result Z :=
  match todo with
  | O => Ok x
  | S todo' =>
      let x := Z.shiftl x 8 in
      match index stream i with
      | Some b => readBigInt_for todo' (S i) (x + b) stream
      | None => Throw TypeError
      end
  end.

Definition readBigInt (nBytes : Z) (stream : Uint8Array) : result Z :=
  readBigInt_for (Z.to_nat nBytes) 0 0 stream.

(** The object [{ size, value }] that [_parseBigInt] returns. *)
Record Sized : Type := { size_of : Z; value_of : Z }.

Definition _parseBigInt (schema : item_type) (stream : Uint8Array)
  : result (Sized * Uint8Array) :=
  let tag := index stream 0 in
  let stream := slice_from 1 stream in
  let len := js_and tag 31 in
  if negb (is_length len) then error schema tag
  else if len <? 0x18 then Ok ({| size_of := 0; value_of := len |}, stream)
  else
    let nBytes := 2 ^ (len - 0x18) in
    x <- readBigInt nBytes stream ;;
    Ok ({| size_of := nBytes; value_of := x |}, slice_from nBytes stream).

Definition _parseUInt (stream : Uint8Array) : result (CBORItem * Uint8Array) :=
  '(n, stream_) <- _parseBigInt Tuint stream ;;
  Ok (uint (size_of n) (value_of n), stream_).

Definition _parseNegInt (stream : Uint8Array) : result (CBORItem * Uint8Array) :=
  '(n, stream_) <- _parseBigInt Tnint stream ;;
  Ok (nint (size_of n) (-1 - value_of n), stream_).

(** [_mergeChunks]: a zeroed array of the total length, then every chunk
    copied at its offset.  [merged.set(item, offset)] throws a [RangeError]
    when the chunk does not fit. *)
Definition total_length (chunks : list Uint8Array) : Z :=
  fold_left (fun len item => len + Z.of_nat (length item)) chunks 0.

Definition set_at (merged item : Uint8Array) (offset : Z) : result Uint8Array :=
  if Z.of_nat (length merged) <? offset + Z.of_nat (length item) then Throw RangeError
  else Ok (firstn (Z.to_nat offset) merged ++ item
           ++ skipn (Z.to_nat offset + length item) merged).

Definition _mergeChunks (chunks : list Uint8Array) : result Uint8Array :=
  let len := total_length chunks in
  let merged := repeat x00 (Z.to_nat len) in
  '(merged, _) <-
    fold_left
      (fun acc item =>
         '(merged, offset) <- acc ;;
         merged <- set_at merged item offset ;;
         Ok (merged, offset + Z.of_nat (length item)))
      chunks (Ok (merged, 0)) ;;
  Ok merged.

(** The object [__parseByteString] returns: its [type] is ["bstr"] for
    either schema. *)
Record BStr : Type := { bstr_size : str_size; bstr_value : Uint8Array }.

(** The entry pushed on [sizes] for a chunk. *)
Definition chunk_entry (chunk : BStr) : Z * Z :=
  match bstr_size chunk with
  | Chunked _ => (Z.of_nat (length (bstr_value chunk)), 8)
  | Definite size => (Z.of_nat (length (bstr_value chunk)), size)
  end.

Section ByteStringLoop.
(** The recursive call [__parseByteString(schema, stream)]. *)
Variable parseChunk : Uint8Array -> result (BStr * Uint8Array).

(** [while (stream[0] != 0xff) { ... }] of [__parseByteString]. *)
Fixpoint chunk_while (fuel : nat) (chunks : list Uint8Array)
         (sizes : list (Z * Z)) (stream : Uint8Array)
  : result (list Uint8Array * list (Z * Z) * Uint8Array) :=
  if js_neq (index stream 0) 0xff then
    match fuel with
    | O => OutOfFuel
    | S fuel' =>
        '(chunk, stream) <- parseChunk stream ;;
        chunk_while fuel' (chunks ++ [bstr_value chunk])
                    (sizes ++ [chunk_entry chunk]) stream
    end
  else Ok (chunks, sizes, stream).
End ByteStringLoop.

Fixpoint __parseByteString (fuel : nat) (schema : item_type) (stream : Uint8Array)
  : result (BStr * Uint8Array) :=
  match fuel with
  | O => OutOfFuel
  | S fuel' =>
      let tag := index stream 0 in
      let len := js_and tag 31 in
      if negb (is_length len || (len =? 0x1f)) then error schema tag
      else if len =? 0x1f then
        let stream := slice_from 1 stream in
        '(chunks, sizes, stream) <-
          chunk_while (__parseByteString fuel' schema) fuel' [] [] stream ;;
        value <- _mergeChunks chunks ;;
        Ok ({| bstr_size := Chunked sizes; bstr_value := value |}, stream)
      else
        '(n, stream) <- _parseBigInt schema stream ;;
        let n_ := bigintToNum (value_of n) in
        let buffer := slice 0 n_ stream in
        let stream := slice_from n_ stream in
        Ok ({| bstr_size := Definite (size_of n); bstr_value := buffer |}, stream)
  end.

Definition _parseByteString (fuel : nat) (stream : Uint8Array)
  : result (CBORItem * Uint8Array) :=
  '(bytes, stream) <- __parseByteString fuel Tbstr stream ;;
  Ok (bstr (bstr_size bytes) (bstr_value bytes), stream).

Definition _parseTextString (fuel : nat) (stream : Uint8Array)
  : result (CBORItem * Uint8Array) :=
  '(bytes, stream) <- __parseByteString fuel Ttstr stream ;;
  let str := TextDecoder_decode (bstr_value bytes) in
  Ok (tstr (bstr_size bytes) str, stream).

(** [_parseFloat]: the view is on [stream.buffer]; the model takes an array
    that spans its buffer, as every array [slice] returns does.  A read past
    the end of the buffer throws a [RangeError]. *)
Definition _parseFloat (stream : Uint8Array) : result (CBORItem * Uint8Array) :=
  let tag := index stream 0 in
  if js_eq tag 0xf9 then Throw (Thrown "Half-precision floats are unsupported")
  else if js_eq tag 0xfa then
    if Z.of_nat (length stream) <? 1 + 4 then Throw RangeError
    else Ok (float 4 (getFloat32 (slice 1 5 stream)), slice_from 5 stream)
  else if js_eq tag 0xfb then
    if Z.of_nat (length stream) <? 1 + 8 then Throw RangeError
    else Ok (float 8 (getFloat64 (slice 1 9 stream)), slice_from 9 stream)
  else Throw (Thrown "Unreachable").

Section ItemLoops.
(** The recursive call [parse(stream)]. *)
Variable parse : Uint8Array -> result (CBORItem * Uint8Array).

(** [while (stream[0] != 0xff) { ... }] of [_parseArray]. *)
Fixpoint array_while (fuel : nat) (array_ : list CBORItem) (stream : Uint8Array)
  : result (list CBORItem * Uint8Array) :=
  if js_neq (index stream 0) 0xff then
    match fuel with
    | O => OutOfFuel
    | S fuel' =>
        '(item, stream) <- parse stream ;;
        array_while fuel' (array_ ++ [item]) stream
    end
  else Ok (array_, stream).

(** [for (let i = 0; i < n_; i++) { ... }] of [_parseArray]. *)
Fixpoint array_for (fuel : nat) (i n_ : Z) (array_ : list CBORItem)
         (stream : Uint8Array) : result (list CBORItem * Uint8Array) :=
  if i <? n_ then
    match fuel with
    | O => OutOfFuel
    | S fuel' =>
        '(item, stream) <- parse stream ;;
        array_for fuel' (num_incr i) n_ (array_ ++ [item]) stream
    end
  else Ok (array_, stream).

Definition _parseArray (fuel : nat) (stream : Uint8Array)
  : result (CBORItem * Uint8Array) :=
  let tag := index stream 0 in
  let len := js_and tag 31 in
  if negb (is_length len || (len =? 0x1f)) then error Tarray tag
  else if len =? 0x1f then
    let stream := slice_from 1 stream in
    '(array_, stream) <- array_while fuel [] stream ;;
    Ok (array None array_, stream)
  else
    '(n, stream) <- _parseBigInt Tarray stream ;;
    let n_ := bigintToNum (value_of n) in
    let size := Some (size_of n) in
    '(array_, stream) <- array_for fuel 0 n_ [] stream ;;
    Ok (array size array_, stream).

(** The two loops of [_parseMap]. *)
Fixpoint map_while (fuel : nat) (map_ : list (CBORItem * CBORItem))
         (stream : Uint8Array) : result (list (CBORItem * CBORItem) * Uint8Array) :=
  if js_neq (index stream 0) 0xff then
    match fuel with
    | O => OutOfFuel
    | S fuel' =>
        '(key, stream) <- parse stream ;;
        '(val, stream) <- parse stream ;;
        map_while fuel' (map_ ++ [(key, val)]) stream
    end
  else Ok (map_, stream).

Fixpoint map_for (fuel : nat) (i n_ : Z) (map_ : list (CBORItem * CBORItem))
         (stream : Uint8Array) : result (list (CBORItem * CBORItem) * Uint8Array) :=
  if i <? n_ then
    match fuel with
    | O => OutOfFuel
    | S fuel' =>
        '(key, stream) <- parse stream ;;
        '(val, stream) <- parse stream ;;
        map_for fuel' (num_incr i) n_ (map_ ++ [(key, val)]) stream
    end
  else Ok (map_, stream).

Definition _parseMap (fuel : nat) (stream : Uint8Array)
  : result (CBORItem * Uint8Array) :=
  let tag := index stream 0 in
  let len := js_and tag 31 in
  if negb (is_length len || (len =? 0x1f)) then error Tmap tag
  else if len =? 0x1f then
    let stream := slice_from 1 stream in
    '(map_, stream) <- map_while fuel [] stream ;;
    Ok (map None map_, stream)
  else
    '(n, stream) <- _parseBigInt Tmap stream ;;
    let n_ := bigintToNum (value_of n) in
    let size := Some (size_of n) in
    '(map_, stream) <- map_for fuel 0 n_ [] stream ;;
    Ok (map size map_, stream).

Definition _parseTagged (stream : Uint8Array) : result (CBORItem * Uint8Array) :=
  let tag := index stream 0 in
  let stream := slice_from 1 stream in
  let tagValue := js_and tag 31 in
  '(inner, stream) <- parse stream ;;
  Ok (tagged tagValue inner, stream).
End ItemLoops.

Fixpoint parse (fuel : nat) (stream : Uint8Array) : result (CBORItem * Uint8Array) :=
  match fuel with
  | O => OutOfFuel
  | S fuel' =>
      let first := index stream 0 in
      let hi := js_and first 0xf0 in
      if (hi =? 0x00) || (hi =? 0x10) then _parseUInt stream
      else if (hi =? 0x20) || (hi =? 0x30) then _parseNegInt stream
      else if (hi =? 0x40) || (hi =? 0x50) then _parseByteString fuel' stream
      else if (hi =? 0x60) || (hi =? 0x70) then _parseTextString fuel' stream
      else if (hi =? 0x80) || (hi =? 0x90) then _parseArray (parse fuel') fuel' stream
      else if (hi =? 0xa0) || (hi =? 0xb0) then _parseMap (parse fuel') fuel' stream
      else if (hi =? 0xc0) || (hi =? 0xd0) then _parseTagged (parse fuel') stream
      else if hi =? 0xf0 then
        let lo := js_and first 0x0f in
        if lo =? 0x04 then Ok (boolean false, slice_from 1 stream)
        else if lo =? 0x05 then Ok (boolean true, slice_from 1 stream)
        else if lo =? 0x06 then Ok (null, slice_from 1 stream)
        else if lo =? 0x07 then Ok (undefined, slice_from 1 stream)
        else if (lo =? 0x09) || (lo =? 0x0a) || (lo =? 0x0b) then _parseFloat stream
        else unknown_type_byte first
      else unknown_type_byte first
  end.

(** ** Valid encodings

    The shared integer encoding of the format, written as an encoder so that
    the theorems can speak of the valid encodings of a value: a header byte
    (major type in the high three bits, additional information in the low
    five) followed by [w] bytes that hold the value, most significant
    first. *)

Definition byte_of_Z (z : Z) : byte :=
  match Byte.of_N (Z.to_N z) with Some b => b | None => x00 end.

Fixpoint be_bytes (w : nat) (v : Z) : list byte :=
  match w with
  | O => []
  | S w' => be_bytes w' (v / 256) ++ [byte_of_Z (v mod 256)]
  end.

Definition additional_info (w v : Z) : Z :=
  if w =? 0 then v
  else if w =? 1 then 0x18
  else if w =? 2 then 0x19
  else if w =? 4 then 0x1a
  else 0x1b.

(** [v] can be written with width [w]. *)
Definition fits (w v : Z) : bool :=
  (0 <=? v)
  && (((w =? 0) && (v <? 24))
      || (((w =? 1) || (w =? 2) || (w =? 4) || (w =? 8)) && (v <? 256 ^ w))).

Definition encode_head (major w v : Z) : list byte :=
  byte_of_Z (major * 32 + additional_info w v) :: be_bytes (Z.to_nat w) v.

(** The least width that holds [v]. *)
Definition minimal_width (v : Z) : Z :=
  if v <? 24 then 0
  else if v <? 2 ^ 8 then 1
  else if v <? 2 ^ 16 then 2
  else if v <? 2 ^ 32 then 4
  else 8.

(** A definite-length chunk of a byte string (major type 2): the width of
    its length field and its bytes. *)
Definition encode_bstr (chunk : Z * Uint8Array) : list byte :=
  encode_head 2 (fst chunk) (Z.of_nat (length (snd chunk))) ++ snd chunk.

Definition valid_chunk (chunk : Z * Uint8Array) : Prop :=
  fits (fst chunk) (Z.of_nat (length (snd chunk))) = true
  /\ Z.of_nat (length (snd chunk)) < 2 ^ 53.

(** ** Relations and notions the theorems are stated with *)

(** The item a chunk written in full decodes to. *)
Definition chunk_item (chunk : Z * Uint8Array) : BStr :=
  {| bstr_size := Definite (fst chunk); bstr_value := snd chunk |}.

(** [chunks_read f s chunks s']: from [s], the loop of [__parseByteString]
    finds no break byte and reads with [f] the chunks [chunks], one after
    the other, and reaches [s']. *)
Inductive chunks_read (f : Uint8Array -> result (BStr * Uint8Array))
  : Uint8Array -> list BStr -> Uint8Array -> Prop :=
| chunks_read_nil (s : Uint8Array) : chunks_read f s [] s
| chunks_read_cons (s s1 s2 : Uint8Array) (chunk : BStr) (chunks : list BStr) :
    js_neq (index s 0) 0xff = true ->
    f s = Ok (chunk, s1) ->
    chunks_read f s1 chunks s2 ->
    chunks_read f s (chunk :: chunks) s2.


(** The low nibbles the simple-value switch of [parse] has a case for. *)
Definition simple_cases : list Z := [0x04; 0x05; 0x06; 0x07; 0x09; 0x0a; 0x0b].

(** [g] answers as [f] wherever [f] does not run out of fuel. *)
Definition extends {A B : Type} (f g : A -> result B) : Prop :=
  forall a, settled (f a) -> g a = f a.

(** [suffix rest s]: [rest] is what is left of [s] after some first bytes. *)
Definition suffix (rest s : Uint8Array) : Prop := exists consumed, s = consumed ++ rest.

(** A reader step that leaves a suffix of the tail of its input. *)
Definition consuming {A : Type} (f : Uint8Array -> result (A * Uint8Array)) : Prop :=
  forall s a rest, f s = Ok (a, rest) -> suffix rest (tl s).

(** [items_read f s items s']: from [s], [f] reads the items [items], one
    after the other, and reaches [s']. *)
Inductive items_read (f : Uint8Array -> result (CBORItem * Uint8Array))
  : Uint8Array -> list CBORItem -> Uint8Array -> Prop :=
| items_read_nil (s : Uint8Array) : items_read f s [] s
| items_read_cons (s s1 s2 : Uint8Array) (item : CBORItem) (items : list CBORItem) :
    f s = Ok (item, s1) ->
    items_read f s1 items s2 ->
    items_read f s (item :: items) s2.

(** [items_to_break f s items s']: as [items_read], and no item starts at a
    break byte. *)
Inductive items_to_break (f : Uint8Array -> result (CBORItem * Uint8Array))
  : Uint8Array -> list CBORItem -> Uint8Array -> Prop :=
| items_to_break_nil (s : Uint8Array) : items_to_break f s [] s
| items_to_break_cons (s s1 s2 : Uint8Array) (item : CBORItem)
                      (items : list CBORItem) :
    js_neq (index s 0) 0xff = true ->
    f s = Ok (item, s1) ->
    items_to_break f s1 items s2 ->
    items_to_break f s (item :: items) s2.

(** [pairs_to_break f s pairs s']: as [pairs_read], and no key starts at a
    break byte. *)
Inductive pairs_to_break (f : Uint8Array -> result (CBORItem * Uint8Array))
  : Uint8Array -> list (CBORItem * CBORItem) -> Uint8Array -> Prop :=
| pairs_to_break_nil (s : Uint8Array) : pairs_to_break f s [] s
| pairs_to_break_cons (s s1 s2 s3 : Uint8Array) (key val : CBORItem)
                      (pairs : list (CBORItem * CBORItem)) :
    js_neq (index s 0) 0xff = true ->
    f s = Ok (key, s1) ->
    f s1 = Ok (val, s2) ->
    pairs_to_break f s2 pairs s3 ->
    pairs_to_break f s ((key, val) :: pairs) s3.

(** The value of a sequence of bytes read most significant first. *)
Definition be_value (bytes : list byte) : Z :=
  fold_left (fun x b => x * 256 + byte_val b) bytes 0.

(** The type that [parse] announces in the error of a malformed header, by
    the major type of the header. *)
Definition schema_of_major (major : Z) : item_type :=
  if major =? 0 then Tuint
  else if major =? 1 then Tnint
  else if major =? 2 then Tbstr
  else if major =? 3 then Ttstr
  else if major =? 4 then Tarray
  else Tmap.

(** A header of major type 0 to 5 whose additional information is no
    length (0x1c to 0x1e), or is the indefinite marker 0x1f on an integer. *)
Definition malformed_header (b : byte) : bool :=
  let major := byte_val b / 32 in
  let len := byte_val b mod 32 in
  (major <=? 5)
  && (((0x1c <=? len) && (len <=? 0x1e)) || ((len =? 0x1f) && (major <=? 1))).

(** The types that the reader names in the error of a malformed header. *)
Definition header_types : list item_type := [Tuint; Tnint; Tbstr; Ttstr; Tarray; Tmap].

(** The failures of the reader on the stream [s]: the two errors of the
    runtime, the message for half-precision floats, and the two messages
    that carry a byte, which is a byte of [s]. *)
Definition reader_error (s : Uint8Array) (e : exn) : Prop :=
  e = TypeError
  \/ e = RangeError
  \/ e = Thrown "Half-precision floats are unsupported"
  \/ (exists b : byte, In b s /\ e = Thrown (unknown_msg (byte_val b)))
  \/ (exists (t : item_type) (b : byte),
         In t header_types /\ In b s /\ e = Thrown (expected_msg t (byte_val b))).

(** A reader step that throws nothing but these. *)
Definition throws_known {A : Type} (f : Uint8Array -> result (A * Uint8Array)) : Prop :=
  forall s e, f s = Throw e -> reader_error s e.

(** ** The reader on small inputs *)

Example parse_tagged_uint : parse 2 [xc3; x05] = Ok (tagged 3 (uint 0 5), []).
Proof. reflexivity. Qed.

Example parse_false_keeps_rest : parse 1 [xf4; x00] = Ok (boolean false, [x00]).
Proof. reflexivity. Qed.

Example parse_uint_8_bytes :
  parse 1 [x1b; xff; xff; xff; xff; xff; xff; xff; xff] = Ok (uint 8 (2 ^ 64 - 1), []).
Proof. reflexivity. Qed.

Example parse_float32 :
  parse 1 [xfa; x3f; x80; x00; x00; x01]
  = Ok (float 4 (getFloat32 [x3f; x80; x00; x00]), [x01]).
Proof. reflexivity. Qed.

Example parse_malformed_length :
  parse 2 [x5c; x05] = Throw (Thrown "Expected bstr. Received: 5c").
Proof. reflexivity. Qed.

Example parse_array_of_two :
  parse 3 [x82; x01; x61; x41]
  = Ok (array (Some 0) [uint 0 1; tstr (Definite 0) (TextDecoder_decode [x41])], []).
Proof. reflexivity. Qed.

Example bigintToNum_rounds_to_even :
  bigintToNum (2 ^ 53 + 1) = 2 ^ 53 /\ bigintToNum (2 ^ 53 + 3) = 2 ^ 53 + 4.
Proof. split; reflexivity. Qed.

(** ** Bytes and numbers *)

Lemma byte_val_of_Z (z : Z) : 0 <= z < 256 -> byte_val (byte_of_Z z) = z.
Proof.
  intros Hz. unfold byte_of_Z, byte_val.
  destruct (Byte.of_N (Z.to_N z)) as [b|] eqn:E.
  - apply Byte.to_of_N in E. lia.
  - apply Byte.of_N_None_iff in E. lia.
Qed.

(** The masks of the reader, on a byte. *)
Lemma land_31 (b : byte) : Z.land (byte_val b) 31 = byte_val b mod 32.
Proof. change 31 with (Z.ones 5). rewrite Z.land_ones by lia. reflexivity. Qed.

Lemma bigintToNum_exact (x : Z) : 0 <= x <= 2 ^ 53 -> bigintToNum x = x.
Proof.
  intros [H0 H1]. unfold bigintToNum.
  destruct (Z.eq_dec x (2 ^ 53)) as [->|Hne]; [reflexivity|].
  destruct (Z.eq_dec x 0) as [->|Hpos]; [reflexivity|].
  assert (Z.log2 (Z.abs x) < 53) as Hlog.
  { rewrite Z.abs_eq by lia. apply Z.log2_lt_pow2; lia. }
  destruct (Z.leb_spec (Z.log2 (Z.abs x) - 52) 0); [reflexivity | lia].
Qed.

Lemma bigintToNum_large (x : Z) : 2 ^ 53 <= x -> 2 ^ 53 <= bigintToNum x.
Proof.
  intros Hx. unfold bigintToNum.
  rewrite Z.abs_eq by lia.
  destruct (Z.leb_spec (Z.log2 x - 52) 0) as [|He]; [lia|].
  set (e := Z.log2 x - 52) in *.
  assert (0 < x) as Hpos by lia.
  pose proof (Z.log2_spec x Hpos) as [Hlo _].
  assert (2 ^ 52 <= Z.shiftr x e) as Hq.
  { rewrite Z.shiftr_div_pow2 by lia.
    apply Z.div_le_lower_bound; [apply Z.pow_pos_nonneg; lia|].
    rewrite Z.mul_comm, <- Z.pow_add_r by lia.
    replace (52 + e) with (Z.log2 x) by (unfold e; lia). exact Hlo. }
  rewrite Z.sgn_pos by lia.
  set (q := Z.shiftr x e) in *.
  assert (2 ^ 52 * 2 ^ e <= Z.shiftl (if (2 ^ (e - 1) <? x - Z.shiftl q e)
                       || ((x - Z.shiftl q e =? 2 ^ (e - 1)) && Z.odd q)
                    then q + 1 else q) e) as Hres.
  { rewrite Z.shiftl_mul_pow2 by lia.
    apply Z.mul_le_mono_nonneg_r; [apply Z.pow_nonneg; lia|].
    destruct (_ || _); lia. }
  assert (2 ^ 1 <= 2 ^ e) by (apply Z.pow_le_mono_r; lia).
  change (2 ^ 53) with (2 ^ 52 * 2 ^ 1). nia.
Qed.

(** ** The integer reader on an encoded value *)

Lemma index_app_r (pre s : Uint8Array) :
  index (pre ++ s) (length pre) = index s 0.
Proof.
  unfold index. rewrite nth_error_app2 by lia.
  rewrite Nat.sub_diag. reflexivity.
Qed.

Lemma index_past_end (s : Uint8Array) (i : nat) :
  (length s <= i)%nat -> index s i = None.
Proof.
  intros H. unfold index.
  apply nth_error_None in H. rewrite H. reflexivity.
Qed.

(** The loop of [readBigInt] run for [a + b] rounds is the loop run for [a]
    rounds, then for [b] more. *)
Lemma readBigInt_for_add (a b i : nat) (x : Z) (s : Uint8Array) :
  readBigInt_for (a + b) i x s =
  (y <- readBigInt_for a i x s ;; readBigInt_for b (i + a) y s).
Proof.
  revert i x. induction a as [|a IH]; intros i x; simpl.
  - rewrite Nat.add_0_r. reflexivity.
  - destruct (index s i) as [v|]; [|reflexivity].
    rewrite IH. replace (S i + a)%nat with (i + S a)%nat by lia. reflexivity.
Qed.

Lemma length_be_bytes (w : nat) (v : Z) : length (be_bytes w v) = w.
Proof.
  revert v. induction w as [|w IH]; intros v; simpl; [reflexivity|].
  rewrite length_app, IH. simpl. lia.
Qed.

(** Reading back the [w] bytes that encode [v] adds [v] below the
    accumulator. *)
Lemma readBigInt_for_be_bytes (w : nat) :
  forall (v x : Z) (pre rest : Uint8Array),
    0 <= v < 256 ^ Z.of_nat w ->
    readBigInt_for w (length pre) x (pre ++ be_bytes w v ++ rest)
    = Ok (x * 256 ^ Z.of_nat w + v).
Proof.
  induction w as [|w IH]; intros v x pre rest Hv.
  - simpl in *. f_equal. lia.
  - replace (S w) with (w + 1)%nat by lia.
    rewrite readBigInt_for_add.
    assert (0 <= v / 256 < 256 ^ Z.of_nat w) as Hhi.
    { rewrite Nat2Z.inj_succ, Z.pow_succ_r in Hv by lia.
      split; [apply Z.div_pos; lia | apply Z.div_lt_upper_bound; lia]. }
    replace (w + 1)%nat with (S w) by lia. cbn [be_bytes].
    rewrite <- (app_assoc (be_bytes w (v / 256))).
    rewrite (IH (v / 256) x pre _ Hhi). cbn [bind].
    rewrite (app_assoc pre), <- (length_be_bytes w (v / 256)) at 1.
    rewrite <- length_app. cbn [readBigInt_for].
    rewrite index_app_r. cbn [app index nth_error option_map].
    rewrite byte_val_of_Z by (apply Z.mod_pos_bound; lia).
    f_equal. rewrite Z.shiftl_mul_pow2 by lia.
    rewrite Nat2Z.inj_succ, Z.pow_succ_r by lia.
    pose proof (Z.div_mod v 256 ltac:(lia)). change (2 ^ 8) with 256. lia.
Qed.

Lemma readBigInt_be_bytes (w v : Z) (rest : Uint8Array) :
  0 <= w -> 0 <= v < 256 ^ w ->
  readBigInt w (be_bytes (Z.to_nat w) v ++ rest) = Ok v.
Proof.
  intros Hw Hv. unfold readBigInt.
  pose proof (readBigInt_for_be_bytes (Z.to_nat w) v 0 [] rest) as H.
  rewrite Z2Nat.id in H by lia. simpl in H. apply H. exact Hv.
Qed.

(** [readBigInt] on a stream that ends before the value does. *)
Lemma readBigInt_for_short (todo : nat) :
  forall (i : nat) (x : Z) (s : Uint8Array),
    (i <= length s < i + todo)%nat ->
    readBigInt_for todo i x s = Throw TypeError.
Proof.
  induction todo as [|todo IH]; intros i x s H; [lia|].
  cbn [readBigInt_for].
  destruct (index s i) as [b|] eqn:E; [|reflexivity].
  apply IH.
  destruct (Nat.le_gt_cases (length s) i) as [Hle|Hgt]; [|lia].
  rewrite index_past_end in E by exact Hle. discriminate.
Qed.

Lemma fits_cases (w v : Z) :
  fits w v = true ->
  0 <= v /\ ((w = 0 /\ v < 24)
             \/ ((w = 1 \/ w = 2 \/ w = 4 \/ w = 8) /\ v < 256 ^ w)).
Proof.
  unfold fits. intros H.
  apply andb_prop in H as [H0 H]. apply Z.leb_le in H0. split; [exact H0|].
  apply orb_prop in H as [H|H]; apply andb_prop in H as [Hw Hv];
    apply Z.ltb_lt in Hv.
  - left. apply Z.eqb_eq in Hw. auto.
  - right. split; [|exact Hv].
    repeat (apply orb_prop in Hw as [Hw|Hw]);
      apply Z.eqb_eq in Hw; auto.
Qed.

Lemma additional_info_range (w v : Z) :
  fits w v = true -> 0 <= additional_info w v <= 0x1b.
Proof.
  intros H. destruct (fits_cases w v H) as (H0 & [(Hw & Hv)|(Hw & Hv)]).
  - subst w. unfold additional_info. simpl. lia.
  - destruct Hw as [-> | [-> | [-> | ->]]]; cbn; lia.
Qed.

(** The value of the header byte of an encoding. *)
Lemma head_byte_val (major w v : Z) :
  0 <= major < 8 -> fits w v = true ->
  byte_val (byte_of_Z (major * 32 + additional_info w v))
  = major * 32 + additional_info w v.
Proof.
  intros Hm Hf. apply additional_info_range in Hf.
  apply byte_val_of_Z. lia.
Qed.

Lemma length_encode_head (major w v : Z) :
  0 <= w -> Z.of_nat (length (encode_head major w v)) = 1 + w.
Proof.
  intros Hw. unfold encode_head.
  cbn [length]. rewrite length_be_bytes. lia.
Qed.

(** The header byte of a stream that is not empty. *)
Lemma index_cons_0 (b : byte) (s : Uint8Array) : index (b :: s) 0 = Some (byte_val b).
Proof. reflexivity. Qed.

Lemma slice_from_1_cons (b : byte) (s : Uint8Array) : slice_from 1 (b :: s) = s.
Proof. reflexivity. Qed.

Lemma js_and_31_cons (b : byte) (s : Uint8Array) :
  js_and (index (b :: s) 0) 31 = byte_val b mod 32.
Proof. rewrite index_cons_0. apply land_31. Qed.

(** [_parseBigInt] on a stream that is not empty, by the additional
    information of its header. *)
Lemma _parseBigInt_cons (schema : item_type) (b : byte) (s : Uint8Array) :
  _parseBigInt schema (b :: s) =
  let len := byte_val b mod 32 in
  if negb (is_length len) then error schema (Some (byte_val b))
  else if len <? 0x18 then Ok ({| size_of := 0; value_of := len |}, s)
  else
    x <- readBigInt (2 ^ (len - 0x18)) s ;;
    Ok ({| size_of := 2 ^ (len - 0x18); value_of := x |},
        slice_from (2 ^ (len - 0x18)) s).
Proof.
  unfold _parseBigInt.
  rewrite js_and_31_cons, slice_from_1_cons, index_cons_0. reflexivity.
Qed.

Lemma head_additional_info (major w v : Z) :
  0 <= major < 8 -> fits w v = true ->
  byte_val (byte_of_Z (major * 32 + additional_info w v)) mod 32
  = additional_info w v.
Proof.
  intros Hm Hf. rewrite head_byte_val by assumption.
  pose proof (additional_info_range w v Hf).
  rewrite Z.add_comm, Z.mod_add by lia. apply Z.mod_small. lia.
Qed.

Lemma slice_from_be_bytes (w v : Z) (rest : Uint8Array) :
  0 <= w -> slice_from w (be_bytes (Z.to_nat w) v ++ rest) = rest.
Proof.
  intros Hw. unfold slice_from.
  rewrite skipn_app, skipn_all2 by (rewrite length_be_bytes; lia).
  rewrite length_be_bytes, Nat.sub_diag. reflexivity.
Qed.

(** [_parseBigInt] reads back the width and the value of an encoding, and
    leaves what follows it. *)
Lemma _parseBigInt_encode_head (schema : item_type) (major w v : Z)
      (rest : Uint8Array) :
  0 <= major < 8 -> fits w v = true ->
  _parseBigInt schema (encode_head major w v ++ rest)
  = Ok ({| size_of := w; value_of := v |}, rest).
Proof.
  intros Hm Hf. unfold encode_head. rewrite <- app_comm_cons.
  rewrite _parseBigInt_cons. cbv zeta.
  rewrite head_additional_info by assumption.
  pose proof (additional_info_range w v Hf) as Hai.
  unfold is_length.
  replace ((0x00 <=? additional_info w v) && (additional_info w v <=? 0x1b))
    with true by (symmetry; apply andb_true_intro; split; apply Z.leb_le; lia).
  cbn [negb].
  destruct (fits_cases w v Hf) as (H0 & [(Hw & Hv)|(Hw & Hv)]).
  - subst w. unfold additional_info. cbn [Z.eqb].
    destruct (Z.ltb_spec v 0x18); [reflexivity | lia].
  - assert (additional_info w v = 0x18 + Z.log2 w /\ 2 ^ Z.log2 w = w) as [Hai' Hpow]
      by (destruct Hw as [-> | [-> | [-> | ->]]]; split; reflexivity).
    assert (0 <= Z.log2 w) by apply Z.log2_nonneg.
    rewrite Hai'.
    destruct (Z.ltb_spec (0x18 + Z.log2 w) 0x18); [lia|].
    replace (0x18 + Z.log2 w - 0x18) with (Z.log2 w) by lia.
    rewrite Hpow.
    rewrite readBigInt_be_bytes by lia. cbn [bind].
    rewrite slice_from_be_bytes by lia. reflexivity.
Qed.

(** ** Dispatch on the header byte *)

(** [parse] sends a header whose major type (the high three bits) is 0 to 6
    to the reader of that type. *)
Lemma parse_major (b : byte) (s : Uint8Array) (fuel : nat) :
  parse (S fuel) (b :: s) =
  match byte_val b / 32 with
  | 0 => _parseUInt (b :: s)
  | 1 => _parseNegInt (b :: s)
  | 2 => _parseByteString fuel (b :: s)
  | 3 => _parseTextString fuel (b :: s)
  | 4 => _parseArray (parse fuel) fuel (b :: s)
  | 5 => _parseMap (parse fuel) fuel (b :: s)
  | 6 => _parseTagged (parse fuel) (b :: s)
  | _ => parse (S fuel) (b :: s)
  end.
Proof. destruct b; reflexivity. Qed.

Lemma head_major (major w v : Z) :
  0 <= major < 8 -> fits w v = true ->
  byte_val (byte_of_Z (major * 32 + additional_info w v)) / 32 = major.
Proof.
  intros Hm Hf. rewrite head_byte_val by assumption.
  pose proof (additional_info_range w v Hf).
  rewrite Z.add_comm, Z.div_add by lia.
  rewrite Z.div_small by lia. lia.
Qed.

Lemma parse_encode_head (major w v : Z) (rest : Uint8Array) (fuel : nat) :
  0 <= major < 8 -> fits w v = true ->
  parse (S fuel) (encode_head major w v ++ rest) =
  match major with
  | 0 => _parseUInt (encode_head major w v ++ rest)
  | 1 => _parseNegInt (encode_head major w v ++ rest)
  | 2 => _parseByteString fuel (encode_head major w v ++ rest)
  | 3 => _parseTextString fuel (encode_head major w v ++ rest)
  | 4 => _parseArray (parse fuel) fuel (encode_head major w v ++ rest)
  | 5 => _parseMap (parse fuel) fuel (encode_head major w v ++ rest)
  | 6 => _parseTagged (parse fuel) (encode_head major w v ++ rest)
  | _ => parse (S fuel) (encode_head major w v ++ rest)
  end.
Proof.
  intros Hm Hf. unfold encode_head at 1. rewrite <- app_comm_cons.
  rewrite parse_major, head_major by assumption. reflexivity.
Qed.

Lemma fits_minimal_width (v : Z) :
  0 <= v < 2 ^ 64 -> fits (minimal_width v) v = true.
Proof.
  intros Hv. unfold fits, minimal_width.
  destruct (Z.ltb_spec v 24) as [H24|H24].
  - cbn [Z.eqb]. destruct (Z.leb_spec 0 v); [|lia].
    destruct (Z.ltb_spec v 24); [reflexivity | lia].
  - destruct (Z.leb_spec 0 v); [|lia].
    destruct (Z.ltb_spec v (2 ^ 8));
      [|destruct (Z.ltb_spec v (2 ^ 16));
        [|destruct (Z.ltb_spec v (2 ^ 32))]];
      cbn [Z.eqb Pos.eqb andb orb];
      apply Z.ltb_lt; lia.
Qed.

Lemma minimal_width_nonneg (v : Z) : 0 <= minimal_width v.
Proof.
  unfold minimal_width.
  repeat match goal with |- context [if ?c then _ else _] => destruct c end; lia.
Qed.

Lemma fits_width_nonneg (w v : Z) : fits w v = true -> 0 <= w.
Proof.
  intros Hf. destruct (fits_cases w v Hf) as (_ & [(Hw & _)|(Hw & _)]); lia.
Qed.

(** ** More fuel changes no answer *)

Lemma bind_settled {A B : Type} (r : result A) (k : A -> result B) :
  settled (bind r k) -> settled r.
Proof.
  destruct r; cbn; intros H; [discriminate | discriminate |].
  exfalso. apply H. reflexivity.
Qed.

Lemma not_settled_OutOfFuel {A : Type} : ~ settled (@OutOfFuel A).
Proof. intros H. apply H. reflexivity. Qed.

Section LoopsMono.
Context {A : Type} (f g : Uint8Array -> result (A * Uint8Array)).
Hypothesis Hfg : extends f g.

Lemma extends_bind {B : Type} (s : Uint8Array) (k1 k2 : A * Uint8Array -> result B) :
  settled (bind (f s) k1) ->
  (forall a, f s = Ok a -> settled (k1 a) -> k2 a = k1 a) ->
  bind (g s) k2 = bind (f s) k1.
Proof.
  intros Hs Hk. rewrite (Hfg s (bind_settled _ _ Hs)).
  destruct (f s) as [a| |] eqn:E; cbn [bind] in *; try reflexivity.
  apply Hk; [reflexivity | exact Hs].
Qed.
End LoopsMono.

Lemma chunk_while_mono (f g : Uint8Array -> result (BStr * Uint8Array)) :
  extends f g ->
  forall (n m : nat) chunks sizes s,
    (n <= m)%nat -> settled (chunk_while f n chunks sizes s) ->
    chunk_while g m chunks sizes s = chunk_while f n chunks sizes s.
Proof.
  intros Hfg n. induction n as [|n IH]; intros m chunks sizes s Hle;
    destruct m as [|m]; try lia; cbn [chunk_while];
    destruct (js_neq (index s 0) 255); intros Hs;
    try reflexivity; try (exfalso; exact (not_settled_OutOfFuel Hs)).
  apply (extends_bind f g Hfg); [exact Hs|].
  intros [chunk s'] _ Hk. apply IH; [lia | exact Hk].
Qed.

Lemma __parseByteString_mono (n : nat) :
  forall (m : nat) schema s,
    (n <= m)%nat -> settled (__parseByteString n schema s) ->
    __parseByteString m schema s = __parseByteString n schema s.
Proof.
  induction n as [|n IH]; intros m schema s Hle;
    [intros Hs; exfalso; exact (not_settled_OutOfFuel Hs)|].
  destruct m as [|m]; [lia|]. cbn [__parseByteString].
  destruct (negb _); [reflexivity|].
  destruct (_ =? 0x1f); [|reflexivity].
  intros Hs. apply bind_settled in Hs.
  rewrite (chunk_while_mono (__parseByteString n schema) (__parseByteString m schema))
    with (n := n); [reflexivity | | lia | exact Hs].
  intros a Ha. apply IH; [lia | exact Ha].
Qed.

Section ItemLoopsMono.
Variables f g : Uint8Array -> result (CBORItem * Uint8Array).
Hypothesis Hfg : extends f g.

Lemma array_while_mono (n : nat) :
  forall (m : nat) array_ s,
    (n <= m)%nat -> settled (array_while f n array_ s) ->
    array_while g m array_ s = array_while f n array_ s.
Proof.
  induction n as [|n IH]; intros m array_ s Hle;
    destruct m as [|m]; try lia; cbn [array_while];
    destruct (js_neq (index s 0) 255); intros Hs;
    try reflexivity; try (exfalso; exact (not_settled_OutOfFuel Hs)).
  apply (extends_bind f g Hfg); [exact Hs|].
  intros [item s'] _ Hk. apply IH; [lia | exact Hk].
Qed.

Lemma array_for_mono (n : nat) :
  forall (m : nat) i n_ array_ s,
    (n <= m)%nat -> settled (array_for f n i n_ array_ s) ->
    array_for g m i n_ array_ s = array_for f n i n_ array_ s.
Proof.
  induction n as [|n IH]; intros m i n_ array_ s Hle;
    destruct m as [|m]; try lia; cbn [array_for];
    destruct (i <? n_); intros Hs;
    try reflexivity; try (exfalso; exact (not_settled_OutOfFuel Hs)).
  apply (extends_bind f g Hfg); [exact Hs|].
  intros [item s'] _ Hk. apply IH; [lia | exact Hk].
Qed.

Lemma map_while_mono (n : nat) :
  forall (m : nat) map_ s,
    (n <= m)%nat -> settled (map_while f n map_ s) ->
    map_while g m map_ s = map_while f n map_ s.
Proof.
  induction n as [|n IH]; intros m map_ s Hle;
    destruct m as [|m]; try lia; cbn [map_while];
    destruct (js_neq (index s 0) 255); intros Hs;
    try reflexivity; try (exfalso; exact (not_settled_OutOfFuel Hs)).
  apply (extends_bind f g Hfg); [exact Hs|].
  intros [key s1] _ Hk1.
  apply (extends_bind f g Hfg); [exact Hk1|].
  intros [val s2] _ Hk2. apply IH; [lia | exact Hk2].
Qed.

Lemma map_for_mono (n : nat) :
  forall (m : nat) i n_ map_ s,
    (n <= m)%nat -> settled (map_for f n i n_ map_ s) ->
    map_for g m i n_ map_ s = map_for f n i n_ map_ s.
Proof.
  induction n as [|n IH]; intros m i n_ map_ s Hle;
    destruct m as [|m]; try lia; cbn [map_for];
    destruct (i <? n_); intros Hs;
    try reflexivity; try (exfalso; exact (not_settled_OutOfFuel Hs)).
  apply (extends_bind f g Hfg); [exact Hs|].
  intros [key s1] _ Hk1.
  apply (extends_bind f g Hfg); [exact Hk1|].
  intros [val s2] _ Hk2. apply IH; [lia | exact Hk2].
Qed.

Lemma _parseArray_mono (n m : nat) (s : Uint8Array) :
  (n <= m)%nat -> settled (_parseArray f n s) ->
  _parseArray g m s = _parseArray f n s.
Proof.
  intros Hle. unfold _parseArray.
  destruct (negb _); [reflexivity|].
  destruct (_ =? 0x1f); intros Hs.
  - apply bind_settled in Hs.
    rewrite (array_while_mono n m) by assumption. reflexivity.
  - destruct (_parseBigInt Tarray s) as [[k s']| |]; cbn [bind] in *;
      try reflexivity.
    apply bind_settled in Hs.
    rewrite (array_for_mono n m) by assumption. reflexivity.
Qed.

Lemma _parseMap_mono (n m : nat) (s : Uint8Array) :
  (n <= m)%nat -> settled (_parseMap f n s) ->
  _parseMap g m s = _parseMap f n s.
Proof.
  intros Hle. unfold _parseMap.
  destruct (negb _); [reflexivity|].
  destruct (_ =? 0x1f); intros Hs.
  - apply bind_settled in Hs.
    rewrite (map_while_mono n m) by assumption. reflexivity.
  - destruct (_parseBigInt Tmap s) as [[k s']| |]; cbn [bind] in *;
      try reflexivity.
    apply bind_settled in Hs.
    rewrite (map_for_mono n m) by assumption. reflexivity.
Qed.

Lemma _parseTagged_mono (s : Uint8Array) :
  settled (_parseTagged f s) -> _parseTagged g s = _parseTagged f s.
Proof.
  unfold _parseTagged. intros Hs. apply bind_settled in Hs.
  rewrite (Hfg _ Hs). reflexivity.
Qed.
End ItemLoopsMono.

(** An answer of [parse] stays the same with more fuel. *)
Lemma parse_mono (n : nat) :
  forall (m : nat) (s : Uint8Array),
    (n <= m)%nat -> settled (parse n s) -> parse m s = parse n s.
Proof.
  induction n as [|n IH]; intros m s Hle;
    [intros Hs; exfalso; exact (not_settled_OutOfFuel Hs)|].
  destruct m as [|m]; [lia|].
  assert (extends (parse n) (parse m)) as Hfg
    by (intros a Ha; apply IH; [lia | exact Ha]).
  cbn [parse].
  repeat match goal with
         | |- context [if ?c then _ else _] => destruct c
         end;
    try reflexivity; intros Hs.
  - unfold _parseByteString in *. apply bind_settled in Hs.
    rewrite (__parseByteString_mono n m) by (assumption || lia). reflexivity.
  - unfold _parseTextString in *. apply bind_settled in Hs.
    rewrite (__parseByteString_mono n m) by (assumption || lia). reflexivity.
  - apply _parseArray_mono; (assumption || lia).
  - apply _parseMap_mono; (assumption || lia).
  - apply _parseTagged_mono; assumption.
Qed.

(** ** Integers *)

Lemma parse_uint_head (w v : Z) (rest : Uint8Array) (fuel : nat) :
  fits w v = true ->
  parse (S fuel) (encode_head 0 w v ++ rest) = Ok (uint w v, rest).
Proof.
  intros Hf. rewrite parse_encode_head by (assumption || lia).
  unfold _parseUInt. rewrite _parseBigInt_encode_head by (assumption || lia).
  reflexivity.
Qed.

(** C5: the encoding of an unsigned integer [v] with its minimal width [w]
    (one of 0, 1, 2, 4, 8) decodes to the item [{type: uint, size: w,
    value: v}]; the encoding is [1 + w] bytes long and the stream that is
    left is what follows these bytes. *)
Theorem uint_minimal_width_decodes (v : Z) (rest : Uint8Array) (fuel : nat) :
  0 <= v < 2 ^ 64 ->
  parse (S fuel) (encode_head 0 (minimal_width v) v ++ rest)
  = Ok (uint (minimal_width v) v, rest)
  /\ Z.of_nat (length (encode_head 0 (minimal_width v) v)) = 1 + minimal_width v
  /\ In (minimal_width v) [0; 1; 2; 4; 8].
Proof.
  intros Hv. split; [|split].
  - apply parse_uint_head, fits_minimal_width, Hv.
  - apply length_encode_head, minimal_width_nonneg.
  - unfold minimal_width.
    repeat match goal with |- context [if ?c then _ else _] => destruct c end;
      simpl; auto 6.
Qed.

Lemma uint_minimal_width_decodes_500 :
  0 <= 500 < 2 ^ 64
  /\ parse 1 [x19; x01; xf4; x2a] = Ok (uint 2 500, [x2a])
  /\ Z.of_nat (length [x19; x01; xf4]) = 1 + 2.
Proof.
  split; [lia|].
  destruct (uint_minimal_width_decodes 500 [x2a] 0 ltac:(lia)) as (H1 & H2 & _).
  exact (conj H1 H2).
Defined.

(** C7: an encoding of a negative integer whose encoded magnitude is [m],
    written with any width [w] that holds [m], decodes to an item of type
    [nint] with size [w] and value [-1 - m]. *)
Theorem nint_decodes (w m : Z) (rest : Uint8Array) (fuel : nat) :
  fits w m = true ->
  parse (S fuel) (encode_head 1 w m ++ rest) = Ok (nint w (-1 - m), rest).
Proof.
  intros Hf. rewrite parse_encode_head by (assumption || lia).
  unfold _parseNegInt. rewrite _parseBigInt_encode_head by (assumption || lia).
  reflexivity.
Qed.

Lemma nint_decodes_minus_1001 :
  fits 2 1000 = true
  /\ parse 1 [x39; x03; xe8] = Ok (nint 2 (-1001), []).
Proof.
  split; [reflexivity|].
  exact (nint_decodes 2 1000 [] 0 eq_refl).
Defined.

(** ** Simple values and floats *)

(** C9: on a stream whose first byte is 0xf9 the decoder throws "Half-precision
    floats are unsupported", whatever bytes follow; this message is neither
    the "Unknown type byte" message nor an "Expected ... Received" message
    of a malformed header. *)
Theorem half_float_unsupported (rest : Uint8Array) (fuel : nat) :
  parse (S fuel) (xf9 :: rest)
  = Throw (Thrown "Half-precision floats are unsupported")
  /\ (forall received,
         unknown_msg received <> "Half-precision floats are unsupported"%string)
  /\ (forall expected received,
         expected_msg expected received
         <> "Half-precision floats are unsupported"%string).
Proof.
  split; [reflexivity|]. split.
  - intros received H. unfold unknown_msg in H. cbn in H. discriminate H.
  - intros expected received H. unfold expected_msg in H. cbn in H.
    discriminate H.
Qed.

(** C10: a first byte with high nibble 0xf and a low nibble that has no case
    in the inner switch makes [parse] throw "Unknown type byte: " followed
    by the byte in hexadecimal, whatever bytes follow: the message of the
    default branch, which a byte of the unknown major type 0xe gets too. *)
Theorem unknown_simple_value_throws (b : byte) (rest : Uint8Array) (fuel : nat) :
  (Z.land (byte_val b) 0xf0 = 0xf0 /\ ~ In (Z.land (byte_val b) 0x0f) simple_cases)
  \/ Z.land (byte_val b) 0xf0 = 0xe0 ->
  parse (S fuel) (b :: rest) = Throw (Thrown (unknown_msg (byte_val b))).
Proof.
  intros [[Hhi Hlo]|Hhi]; destruct b;
    try (vm_compute in Hhi; discriminate Hhi);
    try reflexivity;
    exfalso; apply Hlo; vm_compute; tauto.
Qed.

Lemma unknown_simple_value_throws_ff :
  ((Z.land (byte_val xff) 0xf0 = 0xf0
    /\ ~ In (Z.land (byte_val xff) 0x0f) simple_cases)
   \/ Z.land (byte_val xff) 0xf0 = 0xe0)
  /\ parse 1 [xff; x01] = Throw (Thrown "Unknown type byte: ff").
Proof.
  assert ((Z.land (byte_val xff) 0xf0 = 0xf0
           /\ ~ In (Z.land (byte_val xff) 0x0f) simple_cases)
          \/ Z.land (byte_val xff) 0xf0 = 0xe0) as H.
  { left. split; [reflexivity|]. vm_compute. intuition discriminate. }
  split; [exact H|].
  exact (unknown_simple_value_throws xff [x01] 0 H).
Defined.

(** ** Definite-length strings *)

(** [__parseByteString] on a stream that is not empty, by the additional
    information of its header. *)
Lemma __parseByteString_cons (fuel : nat) (schema : item_type) (b : byte)
      (s : Uint8Array) :
  __parseByteString (S fuel) schema (b :: s) =
  let len := byte_val b mod 32 in
  if negb (is_length len || (len =? 0x1f)) then error schema (Some (byte_val b))
  else if len =? 0x1f then
    '(chunks, sizes, stream) <-
      chunk_while (__parseByteString fuel schema) fuel [] [] s ;;
    value <- _mergeChunks chunks ;;
    Ok ({| bstr_size := Chunked sizes; bstr_value := value |}, stream)
  else
    '(n, stream) <- _parseBigInt schema (b :: s) ;;
    let n_ := bigintToNum (value_of n) in
    Ok ({| bstr_size := Definite (size_of n); bstr_value := slice 0 n_ stream |},
        slice_from n_ stream).
Proof.
  cbn [__parseByteString].
  rewrite js_and_31_cons, slice_from_1_cons, index_cons_0. reflexivity.
Qed.

(** A definite header followed by any bytes: the buffer is the slice of the
    declared length, clamped to the bytes that are there. *)
Lemma __parseByteString_encode_head (fuel : nat) (schema : item_type)
      (major w n : Z) (tail : Uint8Array) :
  0 <= major < 8 -> fits w n = true ->
  __parseByteString (S fuel) schema (encode_head major w n ++ tail)
  = Ok ({| bstr_size := Definite w;
           bstr_value := slice 0 (bigintToNum n) tail |},
        slice_from (bigintToNum n) tail).
Proof.
  intros Hm Hf.
  pose proof (_parseBigInt_encode_head schema major w n tail Hm Hf) as Hn.
  unfold encode_head in *. rewrite <- app_comm_cons in *.
  rewrite __parseByteString_cons. cbv zeta.
  rewrite head_additional_info by assumption.
  pose proof (additional_info_range w n Hf) as Hai.
  unfold is_length.
  destruct (Z.leb_spec 0x00 (additional_info w n)); [|lia].
  destruct (Z.leb_spec (additional_info w n) 0x1b); [|lia].
  destruct (Z.eqb_spec (additional_info w n) 0x1f); [lia|].
  cbn [andb orb negb]. rewrite Hn. reflexivity.
Qed.

Lemma slice_0_app (body rest : Uint8Array) :
  slice 0 (Z.of_nat (length body)) (body ++ rest) = body.
Proof.
  unfold slice. rewrite Nat2Z.id. cbn [Z.to_nat skipn].
  rewrite Nat.sub_0_r, firstn_app, Nat.sub_diag, firstn_all.
  cbn [firstn]. apply app_nil_r.
Qed.

Lemma slice_from_app (body rest : Uint8Array) :
  slice_from (Z.of_nat (length body)) (body ++ rest) = rest.
Proof.
  unfold slice_from. rewrite Nat2Z.id, skipn_app, skipn_all, Nat.sub_diag.
  reflexivity.
Qed.

Lemma slice_0_short (n : Z) (s : Uint8Array) :
  Z.of_nat (length s) <= n -> slice 0 n s = s.
Proof.
  intros H. unfold slice. cbn [Z.to_nat skipn].
  rewrite Nat.sub_0_r. apply firstn_all2. lia.
Qed.

Lemma slice_from_short (n : Z) (s : Uint8Array) :
  Z.of_nat (length s) <= n -> slice_from n s = [].
Proof.
  intros H. unfold slice_from. apply skipn_all2. lia.
Qed.

(** A chunk written in full decodes to its bytes. *)
Lemma __parseByteString_encode_bstr (fuel : nat) (schema : item_type)
      (chunk : Z * Uint8Array) (rest : Uint8Array) :
  valid_chunk chunk ->
  __parseByteString (S fuel) schema (encode_bstr chunk ++ rest)
  = Ok ({| bstr_size := Definite (fst chunk); bstr_value := snd chunk |}, rest).
Proof.
  intros [Hf Hlen]. unfold encode_bstr. rewrite <- app_assoc.
  rewrite __parseByteString_encode_head by (assumption || lia).
  rewrite bigintToNum_exact by lia.
  rewrite slice_0_app, slice_from_app. reflexivity.
Qed.

(** C3: a definite-length byte string written with a length field of width
    [w] and holding [n] bytes decodes to a [bstr] item whose size is [w] and
    whose buffer is these [n] bytes; the bytes consumed are the [1 + w] of
    the header and the [n] of the buffer, and what follows them is the
    stream that is left.  (An [Uint8Array] is shorter than 2^53 bytes.) *)
Theorem definite_bstr_decodes (w n : Z) (body rest : Uint8Array) (fuel : nat) :
  Z.of_nat (length body) = n -> fits w n = true -> n < 2 ^ 53 ->
  exists buffer,
    parse (S (S fuel)) (encode_bstr (w, body) ++ rest)
    = Ok (bstr (Definite w) buffer, rest)
    /\ buffer = body
    /\ Z.of_nat (length buffer) = n
    /\ Z.of_nat (length (encode_bstr (w, body))) = (1 + w) + n.
Proof.
  intros Hn Hf Hlt. subst n. exists body.
  split; [|split; [reflexivity|split; [reflexivity|]]].
  - unfold encode_bstr at 1. cbn [fst snd]. rewrite <- app_assoc.
    rewrite parse_encode_head by (assumption || lia).
    unfold _parseByteString.
    change (encode_head 2 w (Z.of_nat (length body)) ++ body ++ rest)
      with (encode_head 2 (fst (w, body)) (Z.of_nat (length (snd (w, body))))
            ++ snd (w, body) ++ rest).
    rewrite app_assoc. fold (encode_bstr (w, body)).
    rewrite __parseByteString_encode_bstr by (split; assumption).
    reflexivity.
  - unfold encode_bstr. cbn [fst snd].
    rewrite length_app, Nat2Z.inj_add, length_encode_head
      by (eapply fits_width_nonneg; eassumption).
    reflexivity.
Qed.

Lemma definite_bstr_decodes_3 :
  (Z.of_nat (length [x0a; x0b; x0c]) = 3 /\ fits 1 3 = true /\ 3 < 2 ^ 53)
  /\ exists buffer,
      parse 2 [x58; x03; x0a; x0b; x0c; xf6] = Ok (bstr (Definite 1) buffer, [xf6])
      /\ buffer = [x0a; x0b; x0c]
      /\ Z.of_nat (length buffer) = 3
      /\ Z.of_nat (length [x58; x03; x0a; x0b; x0c]) = (1 + 1) + 3.
Proof.
  split; [repeat split; reflexivity|].
  exact (definite_bstr_decodes 1 3 [x0a; x0b; x0c] [xf6] 0 eq_refl eq_refl eq_refl).
Defined.

(** ** Streams that end early *)

(** C2, on the code: a definite byte string whose declared length is more
    than the bytes that remain does not fail; its buffer is the bytes that
    remain, fewer than declared. *)
Lemma truncated_bstr_is_accepted :
  (exists buffer,
      parse 2 [x43; x01] = Ok (bstr (Definite 0) buffer, [])
      /\ Z.of_nat (length buffer) < 3)
  /\ (forall e, parse 2 [x43; x01] <> Throw e).
Proof.
  split.
  - exists [x01]. split; [reflexivity | simpl; lia].
  - intros e H. discriminate H.
Qed.

Lemma _parseBigInt_truncated (schema : item_type) (b : byte) (tail : Uint8Array) :
  0x18 <= byte_val b mod 32 <= 0x1b ->
  Z.of_nat (length tail) < 2 ^ (byte_val b mod 32 - 0x18) ->
  _parseBigInt schema (b :: tail) = Throw TypeError.
Proof.
  intros Hai Hlen. rewrite _parseBigInt_cons. cbv zeta.
  unfold is_length.
  destruct (Z.leb_spec 0x00 (byte_val b mod 32)); [|lia].
  destruct (Z.leb_spec (byte_val b mod 32) 0x1b); [|lia].
  destruct (Z.ltb_spec (byte_val b mod 32) 0x18); [lia|].
  cbn [andb negb]. unfold readBigInt.
  rewrite readBigInt_for_short; [reflexivity|].
  split; [lia|]. cbn [Nat.add].
  assert (0 <= 2 ^ (byte_val b mod 32 - 0x18)) by (apply Z.pow_nonneg; lia).
  lia.
Qed.

(** C2, amended: a stream that ends early is not detected as such, in any
    of these three cases.  A definite byte string (or text string) whose
    declared length [n] is more than the bytes that remain decodes without
    an error to the bytes that remain, and leaves an empty stream; an integer, unsigned or negative, whose header
    announces more value bytes than remain makes the decoder fail with the
    [TypeError] of the runtime; and an item read from a stream with no byte
    left decodes as the unsigned integer 0. *)
Theorem truncated_stream_is_not_detected
        (w n : Z) (tail : Uint8Array) (b : byte) (short : Uint8Array)
        (fuel : nat) :
  fits w n = true ->
  Z.of_nat (length tail) < n -> Z.of_nat (length tail) < 2 ^ 53 ->
  byte_val b / 32 = 0 \/ byte_val b / 32 = 1 ->
  0x18 <= byte_val b mod 32 <= 0x1b ->
  Z.of_nat (length short) < 2 ^ (byte_val b mod 32 - 0x18) ->
  parse (S (S fuel)) (encode_head 2 w n ++ tail) = Ok (bstr (Definite w) tail, [])
  /\ parse (S (S fuel)) (encode_head 3 w n ++ tail)
     = Ok (tstr (Definite w) (TextDecoder_decode tail), [])
  /\ parse (S fuel) (b :: short) = Throw TypeError
  /\ parse (S fuel) [] = Ok (uint 0 0, []).
Proof.
  intros Hf Hlen Hmax Hmajor Hai Hshort.
  assert (Z.of_nat (length tail) <= bigintToNum n) as Hclamp.
  { destruct (Z.le_gt_cases n (2 ^ 53)) as [Hsmall|Hbig].
    - destruct (fits_cases w n Hf) as (H0 & _).
      rewrite bigintToNum_exact by lia. lia.
    - pose proof (bigintToNum_large n ltac:(lia)). lia. }
  split; [|split; [|split]].
  - rewrite parse_encode_head by (assumption || lia).
    unfold _parseByteString.
    rewrite __parseByteString_encode_head by (assumption || lia).
    rewrite slice_0_short, slice_from_short by exact Hclamp. reflexivity.
  - rewrite parse_encode_head by (assumption || lia).
    unfold _parseTextString.
    rewrite __parseByteString_encode_head by (assumption || lia).
    rewrite slice_0_short, slice_from_short by exact Hclamp. reflexivity.
  - rewrite parse_major. destruct Hmajor as [-> | ->].
    + unfold _parseUInt.
      rewrite _parseBigInt_truncated by assumption. reflexivity.
    + unfold _parseNegInt.
      rewrite _parseBigInt_truncated by assumption. reflexivity.
  - reflexivity.
Qed.

Lemma truncated_stream_is_not_detected_at_3 :
  (fits 0 3 = true
   /\ Z.of_nat (length [x01]) < 3 /\ Z.of_nat (length [x01]) < 2 ^ 53
   /\ (byte_val x39 / 32 = 0 \/ byte_val x39 / 32 = 1)
   /\ 0x18 <= byte_val x39 mod 32 <= 0x1b
   /\ Z.of_nat (length [x03]) < 2 ^ (byte_val x39 mod 32 - 0x18))
  /\ parse 2 [x43; x01] = Ok (bstr (Definite 0) [x01], [])
  /\ parse 2 [x63; x01] = Ok (tstr (Definite 0) (TextDecoder_decode [x01]), [])
  /\ parse 1 [x39; x03] = Throw TypeError
  /\ parse 1 [] = Ok (uint 0 0, []).
Proof.
  assert (Z.of_nat (length [x01]) < 3) as H1 by (simpl; lia).
  assert (Z.of_nat (length [x01]) < 2 ^ 53) as H2 by (simpl; lia).
  assert (byte_val x39 / 32 = 0 \/ byte_val x39 / 32 = 1) as Hm
    by (right; reflexivity).
  assert (0x18 <= byte_val x39 mod 32 <= 0x1b) as H3 by (vm_compute; split; discriminate).
  assert (Z.of_nat (length [x03]) < 2 ^ (byte_val x39 mod 32 - 0x18)) as H4
    by (vm_compute; reflexivity).
  split; [repeat split; try reflexivity; try assumption; apply H3|].
  exact (truncated_stream_is_not_detected 0 3 [x01] x39 [x03] 0
                                          eq_refl H1 H2 Hm H3 H4).
Defined.

(** ** Merging chunks *)

Lemma total_length_from (chunks : list Uint8Array) (acc : Z) :
  fold_left (fun len item => len + Z.of_nat (length item)) chunks acc
  = acc + Z.of_nat (length (concat chunks)).
Proof.
  revert acc. induction chunks as [|item chunks IH]; intros acc; cbn [fold_left concat].
  - simpl. lia.
  - rewrite IH, length_app. lia.
Qed.

Lemma total_length_concat (chunks : list Uint8Array) :
  total_length chunks = Z.of_nat (length (concat chunks)).
Proof. unfold total_length. rewrite total_length_from. lia. Qed.

Lemma skipn_repeat_add (a k : nat) (x : byte) :
  skipn a (repeat x (a + k)) = repeat x k.
Proof.
  induction a as [|a IH]; [reflexivity|]. cbn [Nat.add repeat skipn]. exact IH.
Qed.

(** Copying a chunk over the zeroes that follow the bytes already set. *)
Lemma set_at_zeroes (done item : Uint8Array) (k : nat) :
  set_at (done ++ repeat x00 (length item + k)) item (Z.of_nat (length done))
  = Ok ((done ++ item) ++ repeat x00 k).
Proof.
  unfold set_at.
  rewrite length_app, repeat_length.
  destruct (Z.ltb_spec (Z.of_nat (length done + (length item + k)))
                       (Z.of_nat (length done) + Z.of_nat (length item))); [lia|].
  rewrite Nat2Z.id. f_equal.
  rewrite firstn_app, Nat.sub_diag, firstn_all. cbn [firstn].
  rewrite app_nil_r, <- app_assoc. do 2 f_equal.
  rewrite skipn_app, skipn_all2 by lia. cbn [app].
  replace (length done + length item - length done)%nat with (length item) by lia.
  apply skipn_repeat_add.
Qed.

Lemma merge_from (chunks : list Uint8Array) :
  forall done : Uint8Array,
    fold_left
      (fun acc item =>
         '(merged, offset) <- acc ;;
         merged <- set_at merged item offset ;;
         Ok (merged, offset + Z.of_nat (length item)))
      chunks
      (Ok (done ++ repeat x00 (length (concat chunks)), Z.of_nat (length done)))
    = Ok (done ++ concat chunks, Z.of_nat (length (done ++ concat chunks))).
Proof.
  induction chunks as [|item chunks IH]; intros done; cbn [fold_left concat].
  - cbn [length repeat]. rewrite !app_nil_r. reflexivity.
  - cbn [bind]. rewrite length_app, set_at_zeroes. cbn [bind].
    rewrite <- Nat2Z.inj_add, <- length_app, IH, <- app_assoc. reflexivity.
Qed.

(** [_mergeChunks] is the concatenation of the chunks, in order. *)
Lemma _mergeChunks_concat (chunks : list Uint8Array) :
  _mergeChunks chunks = Ok (concat chunks).
Proof.
  unfold _mergeChunks. cbv zeta.
  rewrite total_length_concat, Nat2Z.id.
  pose proof (merge_from chunks []) as H. cbn [app length] in H.
  change (Z.of_nat 0) with 0 in H. rewrite H. reflexivity.
Qed.

(** ** The chunk loop *)

Lemma chunks_read_app f s s1 s2 cs1 cs2 :
  chunks_read f s cs1 s1 -> chunks_read f s1 cs2 s2 ->
  chunks_read f s (cs1 ++ cs2) s2.
Proof.
  induction 1 as [|s s1' s2' chunk chunks Hne Hf Hrest IH]; intros H2;
    cbn [app]; [exact H2|].
  econstructor; eauto.
Qed.

Lemma chunks_read_extends f g s cs s' :
  extends f g -> chunks_read f s cs s' -> chunks_read g s cs s'.
Proof.
  intros Hfg. induction 1 as [|s s1 s2 chunk chunks Hne Hf Hrest IH];
    [constructor|].
  econstructor; [exact Hne | | exact IH].
  rewrite Hfg; [exact Hf|]. rewrite Hf. discriminate.
Qed.

(** The loop stops at a break byte, with the chunks read so far. *)
Lemma chunk_while_reads f s cs s' :
  chunks_read f s cs s' ->
  js_neq (index s' 0) 0xff = false ->
  forall (fuel : nat) chunks sizes,
    (length cs <= fuel)%nat ->
    chunk_while f fuel chunks sizes s
    = Ok (chunks ++ List.map bstr_value cs, sizes ++ List.map chunk_entry cs, s').
Proof.
  induction 1 as [|s s1 s2 chunk cs Hne Hf Hrest IH]; intros Hbreak fuel chunks sizes Hfuel.
  - destruct fuel; cbn [chunk_while]; rewrite Hbreak, !app_nil_r; reflexivity.
  - destruct fuel as [|fuel]; [cbn [length] in Hfuel; lia|].
    cbn [chunk_while]. rewrite Hne, Hf. cbn [bind].
    rewrite IH by (assumption || (cbn [length] in Hfuel; lia)).
    cbn [List.map]. rewrite <- !app_assoc. reflexivity.
Qed.

(** Whenever the loop returns, the stream it returns starts with the break
    byte: the loop does not step over it. *)
Lemma chunk_while_stops_at_break f (fuel : nat) :
  forall chunks sizes s chunks' sizes' s',
    chunk_while f fuel chunks sizes s = Ok (chunks', sizes', s') ->
    js_neq (index s' 0) 0xff = false.
Proof.
  induction fuel as [|fuel IH]; intros chunks sizes s chunks' sizes' s';
    cbn [chunk_while]; destruct (js_neq (index s 0) 255) eqn:E; intros H;
    try discriminate H.
  - injection H as _ _ <-. exact E.
  - destruct (f s) as [[chunk s1]| |]; cbn [bind] in H; try discriminate H.
    eapply IH; exact H.
  - injection H as _ _ <-. exact E.
Qed.

(** A string reported as indefinite is followed by its break byte. *)
Lemma indefinite_string_rest (fuel : nat) schema s chunk s' sizes :
  __parseByteString fuel schema s = Ok (chunk, s') ->
  bstr_size chunk = Chunked sizes ->
  js_neq (index s' 0) 0xff = false.
Proof.
  destruct fuel as [|fuel]; [discriminate|]. cbn [__parseByteString].
  destruct (negb _).
  { unfold error. destruct (index s 0); discriminate. }
  destruct (_ =? 0x1f).
  - destruct (chunk_while _ _ _ _ _) as [[[chunks sizes'] s1]| |] eqn:E;
      cbn [bind]; try discriminate.
    destruct (_mergeChunks chunks); cbn [bind]; try discriminate.
    intros H _. injection H as _ <-.
    eapply chunk_while_stops_at_break; exact E.
  - destruct (_parseBigInt schema s) as [[n s1]| |]; cbn [bind]; try discriminate.
    intros H Hsize. injection H as <- _. discriminate Hsize.
Qed.

(** ** Indefinite-length strings *)

(** The header of a definite chunk is not the break byte. *)
Lemma encode_bstr_not_break (chunk : Z * Uint8Array) (tail : Uint8Array) :
  valid_chunk chunk ->
  js_neq (index (encode_bstr chunk ++ tail) 0) 0xff = true.
Proof.
  intros [Hf _]. unfold encode_bstr, encode_head.
  rewrite <- !app_comm_cons, index_cons_0. cbn [js_neq].
  rewrite head_byte_val by (assumption || lia).
  pose proof (additional_info_range _ _ Hf).
  destruct (Z.eqb_spec (2 * 32 + additional_info (fst chunk)
                                    (Z.of_nat (length (snd chunk)))) 0xff);
    [lia | reflexivity].
Qed.

Lemma chunks_read_encoded (fuel : nat) (schema : item_type)
      (chunks : list (Z * Uint8Array)) (tail : Uint8Array) :
  Forall valid_chunk chunks ->
  chunks_read (__parseByteString (S fuel) schema)
              (concat (List.map encode_bstr chunks) ++ tail)
              (List.map chunk_item chunks) tail.
Proof.
  induction 1 as [|chunk chunks Hv _ IH]; cbn [List.map concat app];
    [constructor|].
  rewrite <- app_assoc. econstructor; [| |exact IH].
  - apply encode_bstr_not_break, Hv.
  - apply __parseByteString_encode_bstr, Hv.
Qed.

(** The outer string of a stream whose chunks the loop reads up to a break
    byte. *)
Lemma __parseByteString_indefinite (fuel : nat) (schema : item_type) (b : byte)
      (s s' : Uint8Array) (cs : list BStr) :
  byte_val b mod 32 = 0x1f ->
  chunks_read (__parseByteString fuel schema) s cs s' ->
  js_neq (index s' 0) 0xff = false ->
  (length cs <= fuel)%nat ->
  __parseByteString (S fuel) schema (b :: s)
  = Ok ({| bstr_size := Chunked (List.map chunk_entry cs);
           bstr_value := concat (List.map bstr_value cs) |}, s').
Proof.
  intros Hb Hread Hbreak Hfuel.
  rewrite __parseByteString_cons. cbv zeta. rewrite Hb. cbn [is_length Z.eqb Pos.eqb Z.leb Z.compare Pos.compare Pos.compare_cont andb orb negb].
  rewrite (chunk_while_reads _ _ _ _ Hread Hbreak) by exact Hfuel.
  cbn [bind app]. rewrite _mergeChunks_concat. reflexivity.
Qed.

Lemma sum_chunk_lengths (chunks : list (Z * Uint8Array)) :
  Z.of_nat (length (concat (List.map snd chunks)))
  = fold_right Z.add 0
      (List.map fst (List.map (fun c => (Z.of_nat (length (snd c)), fst c)) chunks)).
Proof.
  induction chunks as [|c chunks IH]; [reflexivity|].
  simpl. rewrite length_app, Nat2Z.inj_add. simpl in IH. rewrite IH. reflexivity.
Qed.

(** C6: an indefinite-length byte string made of the definite chunks
    [c1 ... ck] and a break byte decodes to a [bstr] item whose buffer is
    [c1 ++ ... ++ ck], with one (length, width) entry for every chunk, in
    order; the length of the buffer is the sum of the recorded lengths.
    (The stream that is left starts at the break byte.) *)
Theorem indefinite_bstr_chunks_concatenated
        (chunks : list (Z * Uint8Array)) (rest : Uint8Array) (fuel : nat) :
  Forall valid_chunk chunks ->
  (length chunks + 3 <= fuel)%nat ->
  exists sizes buffer,
    parse fuel (x5f :: concat (List.map encode_bstr chunks) ++ xff :: rest)
    = Ok (bstr (Chunked sizes) buffer, xff :: rest)
    /\ buffer = concat (List.map snd chunks)
    /\ sizes = List.map (fun c => (Z.of_nat (length (snd c)), fst c)) chunks
    /\ Z.of_nat (length buffer) = fold_right Z.add 0 (List.map fst sizes).
Proof.
  intros Hvalid Hfuel.
  destruct fuel as [|[|[|fuel]]]; try lia.
  do 2 eexists. split; [|split; [reflexivity|split; [reflexivity|]]].
  - rewrite parse_major. change (byte_val x5f / 32) with 2.
    unfold _parseByteString.
    rewrite (__parseByteString_indefinite (S fuel) Tbstr x5f _ (xff :: rest)
               (List.map chunk_item chunks)).
    + cbn [bind bstr_size bstr_value]. rewrite !List.map_map.
      reflexivity.
    + reflexivity.
    + apply chunks_read_encoded, Hvalid.
    + reflexivity.
    + rewrite length_map. lia.
  - apply sum_chunk_lengths.
Qed.

Lemma indefinite_bstr_chunks_concatenated_3 :
  (Forall valid_chunk [(0, [x01]); (1, [x02; x03]); (0, [])]
   /\ (length [(0, [x01]); (1, [x02; x03]); (0, @nil byte)] + 3 <= 6)%nat)
  /\ exists sizes buffer,
      parse 6 [x5f; x41; x01; x58; x02; x02; x03; x40; xff; x07]
      = Ok (bstr (Chunked sizes) buffer, [xff; x07])
      /\ buffer = [x01; x02; x03]
      /\ sizes = [(1, 0); (2, 1); (0, 0)]
      /\ Z.of_nat (length buffer) = fold_right Z.add 0 (List.map fst sizes).
Proof.
  assert (Forall valid_chunk [(0, [x01]); (1, [x02; x03]); (0, [])]) as Hv.
  { repeat constructor; simpl; lia. }
  split; [split; [exact Hv | simpl; lia]|].
  exact (indefinite_bstr_chunks_concatenated
           [(0, [x01]); (1, [x02; x03]); (0, [])] [x07] 6 Hv ltac:(simpl; lia)).
Defined.

(** C4: when the loop of an indefinite byte or text string comes, after the
    chunks [pre], to a chunk that is itself reported as indefinite (its size
    is a list), the decoder does not fail: the outer string decodes to a
    [bstr] (or [tstr]) item, whose size list ends with the entry (length of
    the merged buffer of the nested chunk, 8) and whose buffer ends with
    that merged buffer. *)
Theorem nested_indefinite_chunk_flattened
        (schema : item_type) (fuel : nat) (s s1 s2 : Uint8Array)
        (pre : list BStr) (nested : BStr) (sizes : list (Z * Z)) :
  chunks_read (__parseByteString fuel schema) s pre s1 ->
  js_neq (index s1 0) 0xff = true ->
  __parseByteString fuel schema s1 = Ok (nested, s2) ->
  bstr_size nested = Chunked sizes ->
  forall fuel' : nat,
    (fuel + length pre + 2 <= fuel')%nat ->
    (schema = Tbstr ->
     parse fuel' (x5f :: s)
     = Ok (bstr (Chunked (List.map chunk_entry pre
                          ++ [(Z.of_nat (length (bstr_value nested)), 8)]))
                (concat (List.map bstr_value pre) ++ bstr_value nested), s2))
    /\ (schema = Ttstr ->
        parse fuel' (x7f :: s)
        = Ok (tstr (Chunked (List.map chunk_entry pre
                             ++ [(Z.of_nat (length (bstr_value nested)), 8)]))
                   (TextDecoder_decode
                      (concat (List.map bstr_value pre) ++ bstr_value nested)),
              s2)).
Proof.
  intros Hpre Hne Hnested Hsize fuel' Hfuel.
  destruct fuel' as [|[|fuel']]; try lia.
  assert (1 <= fuel)%nat as Hpos
    by (destruct fuel; [discriminate Hnested | lia]).
  assert (extends (__parseByteString fuel schema) (__parseByteString fuel' schema))
    as Hext.
  { intros a Ha. apply __parseByteString_mono; [lia | exact Ha]. }
  assert (chunks_read (__parseByteString fuel' schema) s (pre ++ [nested]) s2)
    as Hread.
  { apply chunks_read_extends with (f := __parseByteString fuel schema);
      [exact Hext|].
    eapply chunks_read_app; [exact Hpre|].
    econstructor; [exact Hne | exact Hnested | constructor]. }
  pose proof (indefinite_string_rest _ _ _ _ _ _ Hnested Hsize) as Hbreak.
  assert (forall b, byte_val b mod 32 = 0x1f ->
            __parseByteString (S fuel') schema (b :: s)
            = Ok ({| bstr_size :=
                       Chunked (List.map chunk_entry pre
                                ++ [(Z.of_nat (length (bstr_value nested)), 8)]);
                     bstr_value :=
                       concat (List.map bstr_value pre) ++ bstr_value nested |},
                  s2)) as Houter.
  { intros b Hb.
    rewrite (__parseByteString_indefinite fuel' schema b s s2 (pre ++ [nested]))
      by (try assumption; rewrite length_app; cbn [length]; lia).
    rewrite !List.map_app, concat_app. cbn [List.map concat].
    rewrite app_nil_r. unfold chunk_entry at 2. rewrite Hsize. reflexivity. }
  split; intros ->; rewrite parse_major.
  - change (byte_val x5f / 32) with 2. unfold _parseByteString.
    rewrite Houter by reflexivity. reflexivity.
  - change (byte_val x7f / 32) with 3. unfold _parseTextString.
    rewrite Houter by reflexivity. reflexivity.
Qed.

Lemma nested_indefinite_chunk_flattened_bstr :
  (chunks_read (__parseByteString 2 Tbstr)
               [x41; x01; x5f; x42; x02; x03; xff; x41; x07; xff]
               [{| bstr_size := Definite 0; bstr_value := [x01] |}]
               [x5f; x42; x02; x03; xff; x41; x07; xff]
   /\ js_neq (index [x5f; x42; x02; x03; xff; x41; x07; xff] 0) 0xff = true
   /\ __parseByteString 2 Tbstr [x5f; x42; x02; x03; xff; x41; x07; xff]
      = Ok ({| bstr_size := Chunked [(2, 0)]; bstr_value := [x02; x03] |},
            [xff; x41; x07; xff])
   /\ (2 + 1 + 2 <= 5)%nat)
  /\ parse 5 [x5f; x41; x01; x5f; x42; x02; x03; xff; x41; x07; xff]
     = Ok (bstr (Chunked [(1, 0); (2, 8)]) [x01; x02; x03], [xff; x41; x07; xff]).
Proof.
  assert (chunks_read (__parseByteString 2 Tbstr)
               [x41; x01; x5f; x42; x02; x03; xff; x41; x07; xff]
               [{| bstr_size := Definite 0; bstr_value := [x01] |}]
               [x5f; x42; x02; x03; xff; x41; x07; xff]) as Hpre.
  { econstructor; [reflexivity | reflexivity | constructor]. }
  assert (2 + 1 + 2 <= 5)%nat as Hfuel by lia.
  split; [repeat split; (exact Hpre || exact Hfuel || reflexivity)|].
  exact (proj1 (nested_indefinite_chunk_flattened
                  Tbstr 2 _ _ _ _ _ [(2, 0)] Hpre eq_refl eq_refl eq_refl 5 Hfuel)
               eq_refl).
Defined.

(** ** Indefinite-length arrays and maps *)

(** C1, on the code: the empty indefinite array [0x9f 0xff] decodes to the
    array with size null and no element, and so does the empty indefinite
    map [0xbf 0xff] to the empty map; the stream that is returned still
    starts with the break byte: one byte is consumed, not two. *)
Theorem empty_indefinite_array_leaves_break (rest : Uint8Array) (fuel : nat) :
  parse (S fuel) (x9f :: xff :: rest) = Ok (array None [], xff :: rest)
  /\ parse (S fuel) (xbf :: xff :: rest) = Ok (map None [], xff :: rest).
Proof. destruct fuel; split; reflexivity. Qed.

(** Whenever the loop of an indefinite array returns, the stream it returns
    starts with the break byte. *)
Lemma array_while_stops_at_break f (fuel : nat) :
  forall array_ s array' s',
    array_while f fuel array_ s = Ok (array', s') ->
    js_neq (index s' 0) 0xff = false.
Proof.
  induction fuel as [|fuel IH]; intros array_ s array' s';
    cbn [array_while]; destruct (js_neq (index s 0) 255) eqn:E; intros H;
    try discriminate H.
  - injection H as _ <-. exact E.
  - destruct (f s) as [[item s1]| |]; cbn [bind] in H; try discriminate H.
    eapply IH; exact H.
  - injection H as _ <-. exact E.
Qed.

Lemma indefinite_array_rest (fuel : nat) (s rest : Uint8Array) (item : CBORItem) :
  parse fuel (x9f :: s) = Ok (item, rest) ->
  js_neq (index rest 0) 0xff = false.
Proof.
  destruct fuel as [|fuel]; [discriminate|].
  rewrite parse_major. change (byte_val x9f / 32) with 4.
  unfold _parseArray. rewrite js_and_31_cons, slice_from_1_cons.
  change (byte_val x9f mod 32) with 0x1f.
  cbn [is_length Z.eqb Pos.eqb Z.leb Z.compare Pos.compare Pos.compare_cont
       andb orb negb].
  destruct (array_while (parse fuel) fuel [] s) as [[array_ s']| |] eqn:E;
    cbn [bind]; try discriminate.
  intros H. injection H as _ <-.
  eapply array_while_stops_at_break; exact E.
Qed.

(** What the break byte left behind does to the item that encloses the
    array: the definite array [0x82 0x9f 0xff 0x01], of an empty indefinite
    array and the integer 1, is refused. *)
Lemma indefinite_array_inside_definite_array :
  parse 3 [x82; x9f; xff; x01] = Throw (Thrown "Unknown type byte: ff").
Proof. reflexivity. Qed.

(** ** Definite-length maps *)




(** The same happens, through the break byte that an indefinite-length item
    leaves in the stream, to a map that holds one: the next key is read at
    that byte. *)
Lemma definite_map_with_indefinite_value_throws :
  parse 4 [xa2; x01; x9f; xff; x02; x03] = Throw (Thrown "Unknown type byte: ff").
Proof. reflexivity. Qed.



(** ** What is left is a suffix of the input *)

Lemma suffix_refl (s : Uint8Array) : suffix s s.
Proof. exists []. reflexivity. Qed.

Lemma suffix_trans (a b c : Uint8Array) : suffix a b -> suffix b c -> suffix a c.
Proof.
  intros [x ->] [y ->]. exists (y ++ x). apply app_assoc.
Qed.

Lemma suffix_skipn (n : nat) (s : Uint8Array) : suffix (skipn n s) s.
Proof. exists (firstn n s). symmetry. apply firstn_skipn. Qed.

Lemma suffix_tl (s : Uint8Array) : suffix (tl s) s.
Proof. destruct s as [|b t]; [apply suffix_refl | exists [b]; reflexivity]. Qed.

Lemma suffix_slice_from_tl (n : Z) (s : Uint8Array) :
  1 <= n -> suffix (slice_from n s) (tl s).
Proof.
  intros Hn. unfold slice_from.
  replace (Z.to_nat n) with (S (Z.to_nat (n - 1))) by lia.
  destruct s as [|b t]; cbn [skipn tl]; [apply suffix_refl | apply suffix_skipn].
Qed.

Lemma _parseBigInt_suffix (schema : item_type) (s rest : Uint8Array) (n : Sized) :
  _parseBigInt schema s = Ok (n, rest) -> suffix rest (tl s).
Proof.
  unfold _parseBigInt.
  destruct (negb _).
  { unfold error. destruct (index s 0); discriminate. }
  destruct (_ <? 0x18).
  - intros H. injection H as _ <-. apply suffix_slice_from_tl. lia.
  - destruct (readBigInt _ _); cbn [bind]; try discriminate.
    intros H. injection H as _ <-.
    eapply suffix_trans; [apply suffix_skipn | apply suffix_slice_from_tl; lia].
Qed.

Lemma consuming_suffix {A : Type} (f : Uint8Array -> result (A * Uint8Array))
      s a rest :
  consuming f -> f s = Ok (a, rest) -> suffix rest s.
Proof.
  intros Hf H. eapply suffix_trans; [exact (Hf _ _ _ H) | apply suffix_tl].
Qed.

Lemma chunk_while_suffix f (fuel : nat) :
  consuming f ->
  forall chunks sizes s chunks' sizes' s',
    chunk_while f fuel chunks sizes s = Ok (chunks', sizes', s') -> suffix s' s.
Proof.
  intros Hf. induction fuel as [|fuel IH]; intros chunks sizes s chunks' sizes' s';
    cbn [chunk_while]; destruct (js_neq (index s 0) 255); intros H;
    try discriminate H; try (injection H as _ _ <-; apply suffix_refl).
  destruct (f s) as [[chunk s1]| |] eqn:E; cbn [bind] in H; try discriminate H.
  eapply suffix_trans; [eapply IH; exact H | eapply consuming_suffix; eassumption].
Qed.

Lemma __parseByteString_consuming (fuel : nat) (schema : item_type) :
  consuming (__parseByteString fuel schema).
Proof.
  induction fuel as [|fuel IH]; intros s chunk rest; [discriminate|].
  cbn [__parseByteString].
  destruct (negb _).
  { unfold error. destruct (index s 0); discriminate. }
  destruct (_ =? 0x1f).
  - destruct (chunk_while _ _ _ _ _) as [[[chunks sizes] s1]| |] eqn:E;
      cbn [bind]; try discriminate.
    destruct (_mergeChunks chunks); cbn [bind]; try discriminate.
    intros H. injection H as _ <-.
    apply chunk_while_suffix in E; [|exact IH].
    unfold slice_from in E. exact E.
  - destruct (_parseBigInt schema s) as [[n s1]| |] eqn:E; cbn [bind];
      try discriminate.
    intros H. injection H as _ <-.
    eapply suffix_trans; [apply suffix_skipn | eapply _parseBigInt_suffix; exact E].
Qed.

Section ItemLoopsSuffix.
Variable f : Uint8Array -> result (CBORItem * Uint8Array).
Hypothesis Hf : consuming f.

Lemma array_while_suffix (fuel : nat) :
  forall array_ s array' s',
    array_while f fuel array_ s = Ok (array', s') -> suffix s' s.
Proof.
  induction fuel as [|fuel IH]; intros array_ s array' s';
    cbn [array_while]; destruct (js_neq (index s 0) 255); intros H;
    try discriminate H; try (injection H as _ <-; apply suffix_refl).
  destruct (f s) as [[item s1]| |] eqn:E; cbn [bind] in H; try discriminate H.
  eapply suffix_trans; [eapply IH; exact H | eapply consuming_suffix; eassumption].
Qed.

Lemma array_for_suffix (fuel : nat) :
  forall i n_ array_ s array' s',
    array_for f fuel i n_ array_ s = Ok (array', s') -> suffix s' s.
Proof.
  induction fuel as [|fuel IH]; intros i n_ array_ s array' s';
    cbn [array_for]; destruct (i <? n_); intros H;
    try discriminate H; try (injection H as _ <-; apply suffix_refl).
  destruct (f s) as [[item s1]| |] eqn:E; cbn [bind] in H; try discriminate H.
  eapply suffix_trans; [eapply IH; exact H | eapply consuming_suffix; eassumption].
Qed.

Lemma map_while_suffix (fuel : nat) :
  forall map_ s map' s',
    map_while f fuel map_ s = Ok (map', s') -> suffix s' s.
Proof.
  induction fuel as [|fuel IH]; intros map_ s map' s';
    cbn [map_while]; destruct (js_neq (index s 0) 255); intros H;
    try discriminate H; try (injection H as _ <-; apply suffix_refl).
  destruct (f s) as [[key s1]| |] eqn:E1; cbn [bind] in H; try discriminate H.
  destruct (f s1) as [[val s2]| |] eqn:E2; cbn [bind] in H; try discriminate H.
  eapply suffix_trans; [eapply IH; exact H|].
  eapply suffix_trans; eapply consuming_suffix; eassumption.
Qed.

Lemma map_for_suffix (fuel : nat) :
  forall i n_ map_ s map' s',
    map_for f fuel i n_ map_ s = Ok (map', s') -> suffix s' s.
Proof.
  induction fuel as [|fuel IH]; intros i n_ map_ s map' s';
    cbn [map_for]; destruct (i <? n_); intros H;
    try discriminate H; try (injection H as _ <-; apply suffix_refl).
  destruct (f s) as [[key s1]| |] eqn:E1; cbn [bind] in H; try discriminate H.
  destruct (f s1) as [[val s2]| |] eqn:E2; cbn [bind] in H; try discriminate H.
  eapply suffix_trans; [eapply IH; exact H|].
  eapply suffix_trans; eapply consuming_suffix; eassumption.
Qed.

Lemma _parseArray_consuming (fuel : nat) : consuming (_parseArray f fuel).
Proof.
  intros s item rest. unfold _parseArray.
  destruct (negb _).
  { unfold error. destruct (index s 0); discriminate. }
  destruct (_ =? 0x1f).
  - destruct (array_while _ _ _ _) as [[array_ s1]| |] eqn:E; cbn [bind];
      try discriminate.
    intros H. injection H as _ <-.
    apply array_while_suffix in E. unfold slice_from in E. exact E.
  - destruct (_parseBigInt Tarray s) as [[n s1]| |] eqn:E; cbn [bind];
      try discriminate.
    destruct (array_for _ _ _ _ _ _) as [[array_ s2]| |] eqn:E2; cbn [bind];
      try discriminate.
    intros H. injection H as _ <-.
    eapply suffix_trans;
      [eapply array_for_suffix; exact E2 | eapply _parseBigInt_suffix; exact E].
Qed.

Lemma _parseMap_consuming (fuel : nat) : consuming (_parseMap f fuel).
Proof.
  intros s item rest. unfold _parseMap.
  destruct (negb _).
  { unfold error. destruct (index s 0); discriminate. }
  destruct (_ =? 0x1f).
  - destruct (map_while _ _ _ _) as [[map_ s1]| |] eqn:E; cbn [bind];
      try discriminate.
    intros H. injection H as _ <-.
    apply map_while_suffix in E. unfold slice_from in E. exact E.
  - destruct (_parseBigInt Tmap s) as [[n s1]| |] eqn:E; cbn [bind];
      try discriminate.
    destruct (map_for _ _ _ _ _ _) as [[map_ s2]| |] eqn:E2; cbn [bind];
      try discriminate.
    intros H. injection H as _ <-.
    eapply suffix_trans;
      [eapply map_for_suffix; exact E2 | eapply _parseBigInt_suffix; exact E].
Qed.

Lemma _parseTagged_consuming : consuming (_parseTagged f).
Proof.
  intros s item rest. unfold _parseTagged.
  destruct (f (slice_from 1 s)) as [[inner s1]| |] eqn:E; cbn [bind];
    try discriminate.
  intros H. injection H as _ <-.
  apply (consuming_suffix f) in E; [|exact Hf].
  unfold slice_from in E. exact E.
Qed.
End ItemLoopsSuffix.

Lemma _parseFloat_consuming : consuming _parseFloat.
Proof.
  intros s item rest. unfold _parseFloat.
  repeat match goal with
         | |- context [if ?c then _ else _] => destruct c
         end; try discriminate;
    intros H; injection H as _ <-; apply suffix_slice_from_tl; lia.
Qed.

Lemma parse_consuming (fuel : nat) : consuming (parse fuel).
Proof.
  induction fuel as [|fuel IH]; intros s item rest; [discriminate|].
  cbn [parse].
  repeat match goal with
         | |- context [if ?c then _ else _] => destruct c
         end.
  all: try (unfold unknown_type_byte; destruct (index s 0); discriminate).
  all: try (intros H; injection H as _ <-; apply suffix_slice_from_tl; lia).
  - unfold _parseUInt.
    destruct (_parseBigInt Tuint s) as [[n s1]| |] eqn:E; cbn [bind];
      try discriminate.
    intros H. injection H as _ <-. eapply _parseBigInt_suffix; exact E.
  - unfold _parseNegInt.
    destruct (_parseBigInt Tnint s) as [[n s1]| |] eqn:E; cbn [bind];
      try discriminate.
    intros H. injection H as _ <-. eapply _parseBigInt_suffix; exact E.
  - unfold _parseByteString.
    destruct (__parseByteString fuel Tbstr s) as [[bytes s1]| |] eqn:E;
      cbn [bind]; try discriminate.
    intros H. injection H as _ <-.
    eapply __parseByteString_consuming; exact E.
  - unfold _parseTextString.
    destruct (__parseByteString fuel Ttstr s) as [[bytes s1]| |] eqn:E;
      cbn [bind]; try discriminate.
    intros H. injection H as _ <-.
    eapply __parseByteString_consuming; exact E.
  - apply _parseArray_consuming, IH.
  - apply _parseMap_consuming, IH.
  - apply _parseTagged_consuming, IH.
  - apply _parseFloat_consuming.
Qed.

(** X1: whenever [parse] returns, the stream it returns is the input
    without some first bytes, and at least one byte is gone when the input
    was not empty. *)
Theorem parse_returns_suffix (fuel : nat) (s rest : Uint8Array) (item : CBORItem) :
  parse fuel s = Ok (item, rest) ->
  exists consumed, s = consumed ++ rest /\ (s <> [] -> consumed <> []).
Proof.
  intros H. apply parse_consuming in H. destruct H as [c Hc].
  destruct s as [|b t]; cbn [tl] in Hc.
  - exists c. split; [exact Hc | intros Hne; exfalso; apply Hne; reflexivity].
  - exists (b :: c). split; [rewrite Hc; reflexivity | discriminate].
Qed.

Lemma parse_returns_suffix_map :
  parse 3 [xa1; x01; x41; x61; xf6] = Ok (map (Some 0) [(uint 0 1, bstr (Definite 0) [x61])], [xf6])
  /\ exists consumed,
      [xa1; x01; x41; x61; xf6] = consumed ++ [xf6]
      /\ ([xa1; x01; x41; x61; xf6] <> [] -> consumed <> []).
Proof.
  split; [reflexivity|].
  exact (parse_returns_suffix 3 [xa1; x01; x41; x61; xf6] [xf6]
           (map (Some 0) [(uint 0 1, bstr (Definite 0) [x61])]) eq_refl).
Defined.

(** ** Tagged items *)

(** X2: the tag of a tagged item is the low five bits of its header, also
    for the values 24 to 31: no tag number is read from the bytes that
    follow, which are decoded as the payload. *)
Theorem tagged_takes_low_bits
        (b : byte) (s rest : Uint8Array) (inner : CBORItem) (fuel : nat) :
  byte_val b / 32 = 6 ->
  parse fuel s = Ok (inner, rest) ->
  parse (S fuel) (b :: s) = Ok (tagged (byte_val b mod 32) inner, rest).
Proof.
  intros Hmajor Hinner. rewrite parse_major, Hmajor.
  unfold _parseTagged. rewrite js_and_31_cons, slice_from_1_cons, Hinner.
  reflexivity.
Qed.

Lemma tagged_takes_low_bits_d8 :
  (byte_val xd8 / 32 = 6 /\ parse 1 [x20; x05] = Ok (nint 0 (-1), [x05]))
  /\ parse 2 [xd8; x20; x05] = Ok (tagged 24 (nint 0 (-1)), [x05]).
Proof.
  split; [split; reflexivity|].
  exact (tagged_takes_low_bits xd8 [x20; x05] [x05] (nint 0 (-1)) 1 eq_refl eq_refl).
Defined.

(** ** Definite-length arrays *)

Lemma items_read_extends f g s items s' :
  extends f g -> items_read f s items s' -> items_read g s items s'.
Proof.
  intros Hfg. induction 1 as [|s s1 s2 item items Hi Hrest IH]; [constructor|].
  econstructor; [|exact IH].
  rewrite Hfg; [exact Hi|]. rewrite Hi. discriminate.
Qed.

Lemma array_for_reads f s items s' :
  items_read f s items s' ->
  forall (fuel : nat) (i n_ : Z) array_,
    i + Z.of_nat (length items) = n_ -> n_ <= 2 ^ 53 ->
    (length items <= fuel)%nat ->
    array_for f fuel i n_ array_ s = Ok (array_ ++ items, s').
Proof.
  induction 1 as [|s s1 s2 item items Hi Hrest IH];
    intros fuel i n_ array_ Hn Hmax Hfuel; cbn [length] in *.
  - destruct fuel; cbn [array_for];
      (destruct (Z.ltb_spec i n_); [lia|]); rewrite app_nil_r; reflexivity.
  - destruct fuel as [|fuel]; [lia|]. cbn [array_for].
    destruct (Z.ltb_spec i n_); [|lia].
    rewrite Hi. cbn [bind].
    unfold num_incr. destruct (Z.ltb_spec i (2 ^ 53)); [|lia].
    rewrite (IH fuel (i + 1) n_) by lia.
    rewrite <- app_assoc. reflexivity.
Qed.

(** [_parseArray] on a definite header. *)
Lemma _parseArray_encode_head f (fuel : nat) (w n : Z) (s : Uint8Array) :
  fits w n = true ->
  _parseArray f fuel (encode_head 4 w n ++ s)
  = ('(array_, stream) <- array_for f fuel 0 (bigintToNum n) [] s ;;
     Ok (array (Some w) array_, stream)).
Proof.
  intros Hf. unfold _parseArray.
  pose proof (_parseBigInt_encode_head Tarray 4 w n s ltac:(lia) Hf) as Hhead.
  unfold encode_head in *. rewrite <- app_comm_cons in *.
  rewrite js_and_31_cons, head_additional_info by (assumption || lia).
  pose proof (additional_info_range w n Hf) as Hai.
  unfold is_length.
  destruct (Z.leb_spec 0x00 (additional_info w n)); [|lia].
  destruct (Z.leb_spec (additional_info w n) 0x1b); [|lia].
  destruct (Z.eqb_spec (additional_info w n) 0x1f); [lia|].
  cbn [andb orb negb]. rewrite Hhead. reflexivity.
Qed.

(** X3: a definite-length array whose header declares [n] items, followed
    by bytes from which [n] items decode one after the other, decodes to an
    [array] item with the width of the count as its size and these [n]
    items in the order of the stream; what is left is what the last item
    left. *)
Theorem definite_array_keeps_stream_order
        (w n : Z) (s s' : Uint8Array) (items : list CBORItem) (fuel : nat) :
  fits w n = true -> Z.of_nat (length items) = n -> n <= 2 ^ 53 ->
  items_read (parse fuel) s items s' ->
  forall fuel' : nat,
    (fuel + length items < fuel')%nat ->
    parse fuel' (encode_head 4 w n ++ s) = Ok (array (Some w) items, s').
Proof.
  intros Hf Hn Hmax Hread fuel' Hfuel.
  destruct fuel' as [|fuel']; [lia|].
  rewrite parse_encode_head by (assumption || lia).
  rewrite _parseArray_encode_head by assumption.
  destruct (fits_cases w n Hf) as (Hnonneg & _).
  rewrite bigintToNum_exact by lia.
  rewrite (array_for_reads (parse fuel') s items s').
  - reflexivity.
  - apply items_read_extends with (f := parse fuel); [|exact Hread].
    intros a Ha. apply parse_mono; [lia | exact Ha].
  - lia.
  - exact Hmax.
  - lia.
Qed.

Lemma definite_array_keeps_stream_order_3 :
  (fits 1 3 = true
   /\ Z.of_nat (length [uint 0 7; boolean true; uint 0 7]) = 3
   /\ 3 <= 2 ^ 53
   /\ items_read (parse 1) [x07; xf5; x07; xf6]
                 [uint 0 7; boolean true; uint 0 7] [xf6]
   /\ (1 + 3 < 5)%nat)
  /\ parse 5 [x98; x03; x07; xf5; x07; xf6]
     = Ok (array (Some 1) [uint 0 7; boolean true; uint 0 7], [xf6]).
Proof.
  assert (items_read (parse 1) [x07; xf5; x07; xf6]
                     [uint 0 7; boolean true; uint 0 7] [xf6]) as Hread.
  { repeat (econstructor; [reflexivity|]). constructor. }
  assert (3 <= 2 ^ 53) as Hmax by lia.
  assert (1 + 3 < 5)%nat as Hfuel by lia.
  split; [repeat split; (exact Hread || exact Hfuel || exact Hmax || reflexivity)|].
  exact (definite_array_keeps_stream_order
           1 3 [x07; xf5; x07; xf6] [xf6] [uint 0 7; boolean true; uint 0 7]
           1 eq_refl eq_refl Hmax Hread 5 Hfuel).
Defined.




(** ** Indefinite-length arrays and maps, item by item *)

Lemma items_to_break_extends f g s items s' :
  extends f g -> items_to_break f s items s' -> items_to_break g s items s'.
Proof.
  intros Hfg. induction 1 as [|s s1 s2 item items Hne Hi Hrest IH];
    [constructor|].
  econstructor; [exact Hne | | exact IH].
  rewrite Hfg; [exact Hi|]. rewrite Hi. discriminate.
Qed.

Lemma pairs_to_break_extends f g s pairs s' :
  extends f g -> pairs_to_break f s pairs s' -> pairs_to_break g s pairs s'.
Proof.
  intros Hfg. induction 1 as [|s s1 s2 s3 key val pairs Hne Hk Hv Hrest IH];
    [constructor|].
  econstructor; [exact Hne | | | exact IH].
  - rewrite Hfg; [exact Hk|]. rewrite Hk. discriminate.
  - rewrite Hfg; [exact Hv|]. rewrite Hv. discriminate.
Qed.

Lemma array_while_reads f s items rest :
  items_to_break f s items (xff :: rest) ->
  forall (fuel : nat) array_,
    (length items <= fuel)%nat ->
    array_while f fuel array_ s = Ok (array_ ++ items, xff :: rest).
Proof.
  remember (xff :: rest) as s' eqn:Es'.
  induction 1 as [|s s1 s2 item items Hne Hi Hrest IH]; intros fuel array_ Hfuel.
  - subst s. destruct fuel; cbn [array_while]; rewrite app_nil_r; reflexivity.
  - destruct fuel as [|fuel]; [cbn [length] in Hfuel; lia|].
    cbn [array_while]. rewrite Hne, Hi. cbn [bind].
    rewrite IH by (assumption || (cbn [length] in Hfuel; lia)).
    rewrite <- app_assoc. reflexivity.
Qed.

Lemma map_while_reads f s pairs rest :
  pairs_to_break f s pairs (xff :: rest) ->
  forall (fuel : nat) map_,
    (length pairs <= fuel)%nat ->
    map_while f fuel map_ s = Ok (map_ ++ pairs, xff :: rest).
Proof.
  remember (xff :: rest) as s' eqn:Es'.
  induction 1 as [|s s1 s2 s3 key val pairs Hne Hk Hv Hrest IH];
    intros fuel map_ Hfuel.
  - subst s. destruct fuel; cbn [map_while]; rewrite app_nil_r; reflexivity.
  - destruct fuel as [|fuel]; [cbn [length] in Hfuel; lia|].
    cbn [map_while]. rewrite Hne, Hk. cbn [bind]. rewrite Hv. cbn [bind].
    rewrite IH by (assumption || (cbn [length] in Hfuel; lia)).
    rewrite <- app_assoc. reflexivity.
Qed.

(** X5: an indefinite-length array (header 0x9f) followed by bytes from
    which items decode one after the other, none of them starting at a
    break byte, up to a break byte, decodes to an [array] item with size
    null and these items in order; the stream that is returned starts at
    that break byte. *)
Theorem indefinite_array_reads_to_break
        (s rest : Uint8Array) (items : list CBORItem) (fuel : nat) :
  items_to_break (parse fuel) s items (xff :: rest) ->
  forall fuel' : nat,
    (fuel + length items < fuel')%nat ->
    parse fuel' (x9f :: s) = Ok (array None items, xff :: rest).
Proof.
  intros Hread fuel' Hfuel.
  destruct fuel' as [|fuel']; [lia|].
  rewrite parse_major. change (byte_val x9f / 32) with 4.
  unfold _parseArray. rewrite js_and_31_cons, slice_from_1_cons.
  change (byte_val x9f mod 32) with 0x1f.
  cbn [is_length Z.eqb Pos.eqb Z.leb Z.compare Pos.compare Pos.compare_cont
       andb orb negb].
  rewrite (array_while_reads (parse fuel') s items rest).
  - reflexivity.
  - apply items_to_break_extends with (f := parse fuel); [|exact Hread].
    intros a Ha. apply parse_mono; [lia | exact Ha].
  - lia.
Qed.

Lemma indefinite_array_reads_to_break_2 :
  (items_to_break (parse 1) [x01; xf6; xff; x02] [uint 0 1; null] [xff; x02]
   /\ (1 + 2 < 4)%nat)
  /\ parse 4 [x9f; x01; xf6; xff; x02] = Ok (array None [uint 0 1; null], [xff; x02]).
Proof.
  assert (items_to_break (parse 1) [x01; xf6; xff; x02] [uint 0 1; null] [xff; x02])
    as Hread.
  { repeat (econstructor; [reflexivity | reflexivity |]). constructor. }
  assert (1 + 2 < 4)%nat as Hfuel by lia.
  split; [split; [exact Hread | exact Hfuel]|].
  exact (indefinite_array_reads_to_break
           [x01; xf6; xff; x02] [x02] [uint 0 1; null] 1 Hread 4 Hfuel).
Defined.

(** X6: an indefinite-length map (header 0xbf) followed by bytes from which
    keys and values decode in turn, no key starting at a break byte, up to
    a break byte, decodes to a [map] item with size null and these pairs in
    order, repeated keys included; the stream that is returned starts at
    that break byte. *)
Theorem indefinite_map_reads_to_break
        (s rest : Uint8Array) (pairs : list (CBORItem * CBORItem)) (fuel : nat) :
  pairs_to_break (parse fuel) s pairs (xff :: rest) ->
  forall fuel' : nat,
    (fuel + length pairs < fuel')%nat ->
    parse fuel' (xbf :: s) = Ok (map None pairs, xff :: rest).
Proof.
  intros Hread fuel' Hfuel.
  destruct fuel' as [|fuel']; [lia|].
  rewrite parse_major. change (byte_val xbf / 32) with 5.
  unfold _parseMap. rewrite js_and_31_cons, slice_from_1_cons.
  change (byte_val xbf mod 32) with 0x1f.
  cbn [is_length Z.eqb Pos.eqb Z.leb Z.compare Pos.compare Pos.compare_cont
       andb orb negb].
  rewrite (map_while_reads (parse fuel') s pairs rest).
  - reflexivity.
  - apply pairs_to_break_extends with (f := parse fuel); [|exact Hread].
    intros a Ha. apply parse_mono; [lia | exact Ha].
  - lia.
Qed.

Lemma indefinite_map_reads_to_break_2 :
  (pairs_to_break (parse 1) [x01; xf4; x01; xf5; xff]
                  [(uint 0 1, boolean false); (uint 0 1, boolean true)] [xff]
   /\ (1 + 2 < 4)%nat)
  /\ parse 4 [xbf; x01; xf4; x01; xf5; xff]
     = Ok (map None [(uint 0 1, boolean false); (uint 0 1, boolean true)], [xff]).
Proof.
  assert (pairs_to_break (parse 1) [x01; xf4; x01; xf5; xff]
                  [(uint 0 1, boolean false); (uint 0 1, boolean true)] [xff])
    as Hread.
  { repeat (econstructor; [reflexivity | reflexivity | reflexivity |]).
    constructor. }
  assert (1 + 2 < 4)%nat as Hfuel by lia.
  split; [split; [exact Hread | exact Hfuel]|].
  exact (indefinite_map_reads_to_break
           [x01; xf4; x01; xf5; xff] []
           [(uint 0 1, boolean false); (uint 0 1, boolean true)] 1 Hread 4 Hfuel).
Defined.

(** ** Malformed headers *)

(** X7: a header of major type 0 to 5 whose additional information is 0x1c,
    0x1d or 0x1e, or is 0x1f on an integer, makes [parse] throw "Expected
    <type>. Received: <byte in hexadecimal>", with the type of the major
    type of the header, whatever bytes follow. *)
Theorem malformed_header_throws (b : byte) (rest : Uint8Array) (fuel : nat) :
  malformed_header b = true ->
  parse (S (S fuel)) (b :: rest)
  = Throw (Thrown (expected_msg (schema_of_major (byte_val b / 32)) (byte_val b))).
Proof.
  intros H. destruct b; vm_compute in H; try discriminate H; reflexivity.
Qed.

Lemma malformed_header_throws_9d :
  malformed_header x9d = true
  /\ parse 2 [x9d; x01] = Throw (Thrown "Expected array. Received: 9d").
Proof.
  split; [reflexivity|].
  exact (malformed_header_throws x9d [x01] 0 eq_refl).
Defined.

(** ** Text strings and the major type of a string header *)

(** X8: a definite-length text string written with a length field of width
    [w] and holding [n] bytes decodes to a [tstr] item whose size is [w]
    and whose text is the platform's decoding of exactly these [n] bytes;
    what follows them is the stream that is left. *)
Theorem definite_tstr_decodes (w n : Z) (body rest : Uint8Array) (fuel : nat) :
  Z.of_nat (length body) = n -> fits w n = true -> n < 2 ^ 53 ->
  parse (S (S fuel)) (encode_head 3 w n ++ body ++ rest)
  = Ok (tstr (Definite w) (TextDecoder_decode body), rest).
Proof.
  intros Hn Hf Hlt. subst n.
  rewrite parse_encode_head by (assumption || lia).
  unfold _parseTextString.
  rewrite __parseByteString_encode_head by (assumption || lia).
  rewrite bigintToNum_exact by lia.
  rewrite slice_0_app, slice_from_app. reflexivity.
Qed.

Lemma definite_tstr_decodes_2 :
  (Z.of_nat (length [x68; x69]) = 2 /\ fits 0 2 = true /\ 2 < 2 ^ 53)
  /\ parse 2 [x62; x68; x69; xf6]
     = Ok (tstr (Definite 0) (TextDecoder_decode [x68; x69]), [xf6]).
Proof.
  split; [repeat split; reflexivity|].
  exact (definite_tstr_decodes 0 2 [x68; x69] [xf6] 0 eq_refl eq_refl eq_refl).
Defined.

Lemma _parseBigInt_low_bits (schema : item_type) (b1 b2 : byte) (s : Uint8Array) :
  byte_val b1 mod 32 = byte_val b2 mod 32 ->
  is_length (byte_val b1 mod 32) = true ->
  _parseBigInt schema (b2 :: s) = _parseBigInt schema (b1 :: s).
Proof.
  intros Hlow Hlen. rewrite !_parseBigInt_cons. cbv zeta.
  rewrite <- Hlow, Hlen. reflexivity.
Qed.

(** X9: the string reader looks at the low five bits of a header only: two
    headers with the same additional information, when it is a length or
    the indefinite marker, give the same answer on the same following
    bytes, whatever their major types.  So a chunk of an indefinite byte
    string may carry the header of any major type. *)
Theorem string_reader_ignores_major_type
        (fuel : nat) (schema : item_type) (b1 b2 : byte) (s : Uint8Array) :
  byte_val b1 mod 32 = byte_val b2 mod 32 ->
  is_length (byte_val b1 mod 32) || (byte_val b1 mod 32 =? 0x1f) = true ->
  __parseByteString fuel schema (b2 :: s) = __parseByteString fuel schema (b1 :: s).
Proof.
  intros Hlow Hok. destruct fuel as [|fuel]; [reflexivity|].
  rewrite !__parseByteString_cons. cbv zeta.
  rewrite <- Hlow, Hok. cbn [negb].
  destruct (Z.eqb_spec (byte_val b1 mod 32) 0x1f) as [|Hne]; [reflexivity|].
  rewrite (_parseBigInt_low_bits schema b1 b2); [reflexivity | exact Hlow|].
  destruct (is_length (byte_val b1 mod 32)); [reflexivity|].
  cbn [orb] in Hok. discriminate Hok.
Qed.

Lemma string_reader_ignores_major_type_uint_chunk :
  (byte_val x41 mod 32 = byte_val x01 mod 32
   /\ is_length (byte_val x41 mod 32) || (byte_val x41 mod 32 =? 0x1f) = true)
  /\ __parseByteString 1 Tbstr [x01; x2a; xff]
     = Ok ({| bstr_size := Definite 0; bstr_value := [x2a] |}, [xff])
  /\ parse 3 [x5f; x01; x2a; xff] = Ok (bstr (Chunked [(1, 0)]) [x2a], [xff]).
Proof.
  split; [split; reflexivity|]. split; [|reflexivity].
  rewrite (string_reader_ignores_major_type 1 Tbstr x41 x01 [x2a; xff] eq_refl eq_refl).
  reflexivity.
Defined.

(** ** What the integer reader returns *)

Lemma be_value_from (bytes : list byte) (acc : Z) :
  fold_left (fun x b => x * 256 + byte_val b) bytes acc
  = acc * 256 ^ Z.of_nat (length bytes) + be_value bytes.
Proof.
  unfold be_value. revert acc.
  induction bytes as [|b bytes IH]; intros acc; cbn [fold_left length].
  - simpl. lia.
  - rewrite IH, (IH (0 * 256 + byte_val b)).
    rewrite Nat2Z.inj_succ, Z.pow_succ_r by lia. ring.
Qed.

Lemma be_value_cons (b : byte) (bytes : list byte) :
  be_value (b :: bytes) = byte_val b * 256 ^ Z.of_nat (length bytes) + be_value bytes.
Proof.
  unfold be_value at 1. cbn [fold_left]. rewrite be_value_from. ring.
Qed.

Lemma be_value_snoc (bytes : list byte) (b : byte) :
  be_value (bytes ++ [b]) = be_value bytes * 256 + byte_val b.
Proof. unfold be_value. rewrite fold_left_app. reflexivity. Qed.

Lemma byte_val_bounds (b : byte) : 0 <= byte_val b < 256.
Proof. unfold byte_val. pose proof (Byte.to_N_bounded b). lia. Qed.

Lemma be_value_range (bytes : list byte) :
  0 <= be_value bytes < 256 ^ Z.of_nat (length bytes).
Proof.
  induction bytes as [|b bytes IH]; [unfold be_value; simpl; lia|].
  rewrite be_value_cons. cbn [length].
  rewrite Nat2Z.inj_succ, Z.pow_succ_r by lia.
  pose proof (byte_val_bounds b). nia.
Qed.

Lemma byte_of_Z_val (b : byte) : byte_of_Z (byte_val b) = b.
Proof.
  unfold byte_of_Z, byte_val. rewrite N2Z.id, Byte.of_to_N. reflexivity.
Qed.

(** Writing the value of some bytes with as many bytes gives them back. *)
Lemma be_bytes_be_value (bytes : list byte) :
  be_bytes (length bytes) (be_value bytes) = bytes.
Proof.
  induction bytes as [|b bytes IH] using rev_ind; [reflexivity|].
  rewrite length_app, Nat.add_1_r. cbn [be_bytes length].
  rewrite be_value_snoc. pose proof (byte_val_bounds b).
  replace ((be_value bytes * 256 + byte_val b) / 256) with (be_value bytes)
    by (rewrite Z.add_comm, Z.div_add by lia; rewrite Z.div_small by lia; lia).
  replace ((be_value bytes * 256 + byte_val b) mod 256) with (byte_val b)
    by (rewrite Z.add_comm, Z.mod_add by lia; symmetry; apply Z.mod_small; lia).
  rewrite IH, byte_of_Z_val. reflexivity.
Qed.

Lemma skipn_index (s : Uint8Array) (i : nat) (v : Z) :
  index s i = Some v ->
  exists b, byte_val b = v /\ skipn i s = b :: skipn (S i) s.
Proof.
  unfold index. revert i. induction s as [|c s IH]; intros [|i] H;
    cbn [nth_error option_map] in H; try discriminate H.
  - injection H as <-. exists c. split; reflexivity.
  - destruct (IH i H) as (b & Hb & Hs). exists b. split; [exact Hb | exact Hs].
Qed.

(** The loop of [readBigInt], when it returns: the bytes were there, and
    the value is the accumulator shifted, plus the value of the bytes. *)
Lemma readBigInt_for_value (todo : nat) :
  forall (i : nat) (x v : Z) (s : Uint8Array),
    (i <= length s)%nat ->
    readBigInt_for todo i x s = Ok v ->
    (i + todo <= length s)%nat
    /\ v = x * 256 ^ Z.of_nat todo + be_value (firstn todo (skipn i s)).
Proof.
  induction todo as [|todo IH]; intros i x v s Hi H; cbn [readBigInt_for] in H.
  - injection H as <-. split; [lia|]. unfold be_value. simpl. lia.
  - destruct (index s i) as [b|] eqn:E; [|discriminate H].
    destruct (skipn_index s i b E) as (c & Hc & Hs).
    assert (i < length s)%nat as Hlt.
    { destruct (Nat.le_gt_cases (length s) i) as [Hle|Hgt]; [|exact Hgt].
      rewrite index_past_end in E by exact Hle. discriminate E. }
    destruct (IH (S i) _ v s ltac:(lia) H) as (Hlen & Hv).
    split; [lia|].
    rewrite Hs. cbn [firstn]. rewrite be_value_cons, Hc, Hv.
    rewrite length_firstn, length_skipn, Nat.min_l by lia.
    rewrite Z.shiftl_mul_pow2 by lia.
    rewrite Nat2Z.inj_succ, Z.pow_succ_r by lia. change (2 ^ 8) with 256. ring.
Qed.

Lemma readBigInt_value (nBytes v : Z) (s : Uint8Array) :
  readBigInt nBytes s = Ok v ->
  (Z.to_nat nBytes <= length s)%nat
  /\ v = be_value (firstn (Z.to_nat nBytes) s)
  /\ be_bytes (Z.to_nat nBytes) v = firstn (Z.to_nat nBytes) s.
Proof.
  unfold readBigInt. intros H.
  destruct (readBigInt_for_value _ 0 0 v s ltac:(lia) H) as (Hlen & Hv).
  cbn [skipn Nat.add] in *. split; [exact Hlen|].
  assert (v = be_value (firstn (Z.to_nat nBytes) s)) as Hv' by lia.
  split; [exact Hv'|].
  rewrite Hv'.
  assert (length (firstn (Z.to_nat nBytes) s) = Z.to_nat nBytes) as Hl
    by (rewrite length_firstn; lia).
  rewrite <- Hl at 1. apply be_bytes_be_value.
Qed.

Lemma fits_intro (w v : Z) :
  0 <= v ->
  (w = 0 /\ v < 24) \/ ((w = 1 \/ w = 2 \/ w = 4 \/ w = 8) /\ v < 256 ^ w) ->
  fits w v = true.
Proof.
  intros H0 H. unfold fits.
  destruct (Z.leb_spec 0 v); [|lia]. cbn [andb].
  destruct H as [[-> Hv]|[Hw Hv]].
  - cbn [Z.eqb]. destruct (Z.ltb_spec v 24); [reflexivity | lia].
  - destruct (Z.ltb_spec v (256 ^ w)); [|lia].
    destruct Hw as [-> | [-> | [-> | ->]]]; reflexivity.
Qed.

(** What [_parseBigInt] returns on a stream that is not empty. *)
Lemma _parseBigInt_reencode
        (schema : item_type) (b : byte) (t rest : Uint8Array) (n : Sized) :
  _parseBigInt schema (b :: t) = Ok (n, rest) ->
  fits (size_of n) (value_of n) = true
  /\ b :: t = encode_head (byte_val b / 32) (size_of n) (value_of n) ++ rest.
Proof.
  rewrite _parseBigInt_cons. cbv zeta.
  pose proof (byte_val_bounds b) as Hb.
  pose proof (Z.div_mod (byte_val b) 32 ltac:(lia)) as Hdm.
  pose proof (Z.mod_pos_bound (byte_val b) 32 ltac:(lia)) as Hmod.
  remember (byte_val b mod 32) as len eqn:Hlen.
  unfold is_length.
  destruct (Z.leb_spec 0x00 len) as [Hge|Hneg]; [|lia].
  destruct (Z.leb_spec len 0x1b) as [Hle|Hgt]; cbn [andb negb];
    [|intros Hres; discriminate Hres].
  destruct (Z.ltb_spec len 0x18) as [Hsmall|Hbig].
  - intros Hres. injection Hres as <- <-. cbn [size_of value_of]. split.
    + apply fits_intro; [lia | left; split; [reflexivity | lia]].
    + unfold encode_head, additional_info. cbn [Z.eqb Z.to_nat be_bytes app].
      replace (byte_val b / 32 * 32 + len) with (byte_val b) by lia.
      rewrite byte_of_Z_val. reflexivity.
  - destruct (readBigInt (2 ^ (len - 0x18)) t) as [x| |] eqn:E; cbn [bind];
      intros Hres; try discriminate Hres.
    injection Hres as <- <-. cbn [size_of value_of].
    assert (exists w, 2 ^ (len - 0x18) = w
                      /\ (w = 1 \/ w = 2 \/ w = 4 \/ w = 8)
                      /\ additional_info w x = len) as (w & Hw & Hcases & Hai).
    { assert (len = 0x18 \/ len = 0x19 \/ len = 0x1a \/ len = 0x1b) as Hc by lia.
      destruct Hc as [Hc | [Hc | [Hc | Hc]]]; rewrite Hc;
        [exists 1 | exists 2 | exists 4 | exists 8];
        (split; [reflexivity | split; [tauto | reflexivity]]). }
    rewrite Hw in *.
    destruct (readBigInt_value w x t E) as (Hl & Hx & Hbytes).
    pose proof (be_value_range (firstn (Z.to_nat w) t)) as Hrange.
    rewrite length_firstn, Nat.min_l, Z2Nat.id, <- Hx in Hrange by lia.
    split.
    + apply fits_intro; [lia | right; split; [exact Hcases | lia]].
    + unfold encode_head, slice_from. rewrite Hai, Hbytes.
      replace (byte_val b / 32 * 32 + len) with (byte_val b) by lia.
      rewrite byte_of_Z_val. cbn [app]. rewrite firstn_skipn. reflexivity.
Qed.

(** X10: whenever [_parseBigInt] returns on a stream that is not empty, the
    value it returns is one that the width it returns can hold (below 24
    for width 0, below 256^w for a width w of 1, 2, 4 or 8), and writing
    this value again with this width under the major type of the header
    gives back, byte for byte, what was consumed: the input is these
    bytes, one more than the width, followed by the stream that is
    returned. *)
Theorem _parseBigInt_keeps_the_encoding
        (schema : item_type) (b : byte) (t rest : Uint8Array) (n : Sized) :
  _parseBigInt schema (b :: t) = Ok (n, rest) ->
  fits (size_of n) (value_of n) = true
  /\ b :: t = encode_head (byte_val b / 32) (size_of n) (value_of n) ++ rest
  /\ Z.of_nat (length (b :: t)) = 1 + size_of n + Z.of_nat (length rest).
Proof.
  intros H. destruct (_parseBigInt_reencode schema b t rest n H) as (Hf & Hs).
  split; [exact Hf|]. split; [exact Hs|].
  rewrite Hs at 1. rewrite length_app, Nat2Z.inj_add, length_encode_head
    by (eapply fits_width_nonneg; exact Hf).
  reflexivity.
Qed.

Lemma _parseBigInt_keeps_the_encoding_1905 :
  _parseBigInt Tarray [x99; x01; x05; x2a]
  = Ok ({| size_of := 2; value_of := 261 |}, [x2a])
  /\ fits 2 261 = true
  /\ [x99; x01; x05; x2a] = encode_head (byte_val x99 / 32) 2 261 ++ [x2a]
  /\ Z.of_nat (length [x99; x01; x05; x2a]) = 1 + 2 + Z.of_nat (length [x2a]).
Proof.
  split; [reflexivity|].
  exact (_parseBigInt_keeps_the_encoding
           Tarray x99 [x01; x05; x2a] [x2a] {| size_of := 2; value_of := 261 |}
           eq_refl).
Defined.

Lemma uint_header_major (b : byte) :
  (Z.land (byte_val b) 0xf0 =? 0x00) || (Z.land (byte_val b) 0xf0 =? 0x10) = true ->
  byte_val b / 32 = 0.
Proof. destruct b; vm_compute; intros H; (reflexivity || discriminate H). Qed.

Lemma nint_header_major (b : byte) :
  (Z.land (byte_val b) 0xf0 =? 0x20) || (Z.land (byte_val b) 0xf0 =? 0x30) = true ->
  byte_val b / 32 = 1.
Proof. destruct b; vm_compute; intros H; (reflexivity || discriminate H). Qed.

(** The item of a reader that returns no integer satisfies a property that
    is only about integers. *)
Ltac no_integer :=
  unfold _parseByteString, _parseTextString, _parseArray, _parseMap,
    _parseTagged, _parseFloat, error, unknown_type_byte;
  repeat match goal with
         | |- context [bind ?r _] => destruct r as [[? ?]| |]; cbn [bind]
         | |- context [if ?c then _ else _] => destruct c
         | |- context [match ?o with Some _ => _ | None => _ end] => destruct o
         end;
  let H := fresh "H" in
  intros H; try discriminate H; injection H as <- _; exact I.

Ltac top_if :=
  match goal with
  | |- (if ?c then _ else _) = _ -> _ => destruct c eqn:?
  end.

(** X11: whenever [parse] returns an unsigned or a negative integer from a
    stream that is not empty, the magnitude is one that the recorded width
    can hold (so an unsigned value is in [0, 2^64) and a negative one in
    [-2^64, -1]), and writing the magnitude again with the recorded width
    gives back, byte for byte, what was consumed: also an encoding wider
    than needed is told apart by the size of the item. *)
Theorem integer_item_keeps_the_encoding
        (fuel : nat) (b : byte) (t rest : Uint8Array) (item : CBORItem) :
  parse fuel (b :: t) = Ok (item, rest) ->
  match item with
  | uint w v => fits w v = true /\ b :: t = encode_head 0 w v ++ rest
  | nint w v => fits w (-1 - v) = true /\ b :: t = encode_head 1 w (-1 - v) ++ rest
  | _ => True
  end.
Proof.
  destruct fuel as [|fuel]; [discriminate|]. cbn [parse].
  rewrite index_cons_0. cbn [js_and].
  top_if.
  { unfold _parseUInt.
    destruct (_parseBigInt Tuint (b :: t)) as [[n s1]| |] eqn:E; cbn [bind];
      intros H; try discriminate H.
    injection H as <- <-.
    destruct (_parseBigInt_reencode _ _ _ _ _ E) as (Hf & Hs).
    rewrite uint_header_major in Hs by assumption. split; assumption. }
  top_if.
  { unfold _parseNegInt.
    destruct (_parseBigInt Tnint (b :: t)) as [[n s1]| |] eqn:E;
      cbv beta iota delta [bind];
      intros H; try discriminate H.
    assert (item = nint (size_of n) (-1 - value_of n) /\ rest = s1) as [-> ->]
      by (split; congruence).
    destruct (_parseBigInt_reencode _ _ _ _ _ E) as (Hf & Hs).
    rewrite nint_header_major in Hs by assumption.
    replace (-1 - (-1 - value_of n)) with (value_of n) by lia.
    split; assumption. }
  repeat (top_if; [no_integer|]).
  no_integer.
Qed.

Lemma integer_item_keeps_the_encoding_wide :
  parse 1 [x18; x05; x2a] = Ok (uint 1 5, [x2a])
  /\ fits 1 5 = true /\ [x18; x05; x2a] = encode_head 0 1 5 ++ [x2a].
Proof.
  split; [reflexivity|].
  exact (integer_item_keeps_the_encoding 1 x18 [x05; x2a] [x2a] (uint 1 5) eq_refl).
Defined.

(** ** Indefinite items without a break byte *)

Lemma array_while_spins f (item : CBORItem) :
  f [] = Ok (item, []) ->
  forall (fuel : nat) array_, array_while f fuel array_ [] = OutOfFuel.
Proof.
  intros Hf. induction fuel as [|fuel IH]; intros array_; cbn [array_while];
    [reflexivity|].
  change (js_neq (index [] 0) 255) with true. cbv iota.
  rewrite Hf. cbn [bind]. apply IH.
Qed.

Lemma array_while_no_break f s items (item : CBORItem) :
  items_to_break f s items [] ->
  f [] = Ok (item, []) ->
  forall (fuel : nat) array_, array_while f fuel array_ s = OutOfFuel.
Proof.
  remember [] as s' eqn:Es'.
  induction 1 as [|s s1 s2 it items Hne Hi Hrest IH]; intros Hf fuel array_.
  - subst s. eapply array_while_spins; exact Hf.
  - destruct fuel as [|fuel]; cbn [array_while]; rewrite Hne; [reflexivity|].
    rewrite Hi. cbn [bind]. apply IH; assumption.
Qed.

(** X12: an indefinite-length array whose items decode one after the other
    to the very end of the stream, with no break byte, never returns: the
    loop goes on reading the exhausted stream, where every read gives the
    unsigned integer 0, so no amount of fuel gets an answer. *)
Theorem unterminated_indefinite_array_never_returns
        (s : Uint8Array) (items : list CBORItem) (fuel0 : nat) :
  items_to_break (parse fuel0) s items [] ->
  forall fuel : nat, parse fuel (x9f :: s) = OutOfFuel.
Proof.
  intros Hread fuel.
  assert (parse (S (S (fuel + fuel0))) (x9f :: s) = OutOfFuel) as Hbig.
  { rewrite parse_major. change (byte_val x9f / 32) with 4.
    unfold _parseArray. rewrite js_and_31_cons, slice_from_1_cons.
    change (byte_val x9f mod 32) with 0x1f.
    cbn [is_length Z.eqb Pos.eqb Z.leb Z.compare Pos.compare Pos.compare_cont
         andb orb negb].
    rewrite (array_while_no_break (parse (S (fuel + fuel0))) s items (uint 0 0)).
    - reflexivity.
    - apply items_to_break_extends with (f := parse fuel0); [|exact Hread].
      intros a Ha. apply parse_mono; [lia | exact Ha].
    - reflexivity. }
  destruct (parse fuel (x9f :: s)) as [a|e|] eqn:E; [| |reflexivity];
    rewrite (parse_mono fuel (S (S (fuel + fuel0)))) in Hbig
      by (lia || (rewrite E; discriminate));
    rewrite E in Hbig; discriminate Hbig.
Qed.

Lemma unterminated_indefinite_array_never_returns_2 :
  items_to_break (parse 1) [x01; x02] [uint 0 1; uint 0 2] []
  /\ parse 1000 [x9f; x01; x02] = OutOfFuel.
Proof.
  assert (items_to_break (parse 1) [x01; x02] [uint 0 1; uint 0 2] []) as Hread.
  { repeat (econstructor; [reflexivity | reflexivity |]). constructor. }
  split; [exact Hread|].
  exact (unterminated_indefinite_array_never_returns
           [x01; x02] [uint 0 1; uint 0 2] 1 Hread 1000).
Defined.

Lemma chunk_while_spins f (chunk : BStr) :
  f [] = Ok (chunk, []) ->
  forall (fuel : nat) chunks sizes, chunk_while f fuel chunks sizes [] = OutOfFuel.
Proof.
  intros Hf. induction fuel as [|fuel IH]; intros chunks sizes; cbn [chunk_while];
    [reflexivity|].
  change (js_neq (index [] 0) 255) with true. cbv iota.
  rewrite Hf. cbn [bind]. apply IH.
Qed.

Lemma chunk_while_no_break f s cs (chunk : BStr) :
  chunks_read f s cs [] ->
  f [] = Ok (chunk, []) ->
  forall (fuel : nat) chunks sizes, chunk_while f fuel chunks sizes s = OutOfFuel.
Proof.
  remember [] as s' eqn:Es'.
  induction 1 as [|s s1 s2 c cs Hne Hc Hrest IH]; intros Hf fuel chunks sizes.
  - subst s. eapply chunk_while_spins; exact Hf.
  - destruct fuel as [|fuel]; cbn [chunk_while]; rewrite Hne; [reflexivity|].
    rewrite Hc. cbn [bind]. apply IH; assumption.
Qed.

(** X13: an indefinite-length byte or text string whose chunks decode one
    after the other to the very end of the stream, with no break byte,
    never returns: on the exhausted stream every read gives an empty chunk
    of width 0, and the loop goes on. *)
Theorem unterminated_indefinite_string_never_returns
        (schema : item_type) (b : byte) (s : Uint8Array) (chunks : list BStr)
        (fuel0 : nat) :
  byte_val b mod 32 = 0x1f ->
  chunks_read (__parseByteString fuel0 schema) s chunks [] ->
  forall fuel : nat, __parseByteString fuel schema (b :: s) = OutOfFuel.
Proof.
  intros Hb Hread fuel.
  assert (__parseByteString (S (S (fuel + fuel0))) schema (b :: s) = OutOfFuel)
    as Hbig.
  { rewrite __parseByteString_cons. cbv zeta. rewrite Hb.
    cbn [is_length Z.eqb Pos.eqb Z.leb Z.compare Pos.compare Pos.compare_cont
         andb orb negb].
    rewrite (chunk_while_no_break
               (__parseByteString (S (fuel + fuel0)) schema) s chunks
               {| bstr_size := Definite 0; bstr_value := [] |}).
    - reflexivity.
    - apply chunks_read_extends with (f := __parseByteString fuel0 schema);
        [|exact Hread].
      intros a Ha. apply __parseByteString_mono; [lia | exact Ha].
    - reflexivity. }
  destruct (__parseByteString fuel schema (b :: s)) as [a|e|] eqn:E;
    [| |reflexivity];
    rewrite (__parseByteString_mono fuel (S (S (fuel + fuel0)))) in Hbig
      by (lia || (rewrite E; discriminate));
    rewrite E in Hbig; discriminate Hbig.
Qed.

Lemma unterminated_indefinite_string_never_returns_1 :
  (byte_val x5f mod 32 = 0x1f
   /\ chunks_read (__parseByteString 1 Tbstr) [x41; x2a]
                  [{| bstr_size := Definite 0; bstr_value := [x2a] |}] [])
  /\ __parseByteString 1000 Tbstr [x5f; x41; x2a] = OutOfFuel.
Proof.
  assert (chunks_read (__parseByteString 1 Tbstr) [x41; x2a]
                  [{| bstr_size := Definite 0; bstr_value := [x2a] |}] []) as Hread.
  { econstructor; [reflexivity | reflexivity | constructor]. }
  split; [split; [reflexivity | exact Hread]|].
  exact (unterminated_indefinite_string_never_returns
           Tbstr x5f [x41; x2a] _ 1 eq_refl Hread 1000).
Defined.

(** ** Merged chunks *)

(** X14: [_mergeChunks] never throws: it returns the chunks one after the
    other, in the order of the list, in a buffer whose length is the sum of
    their lengths. *)
Theorem _mergeChunks_appends_in_order (chunks : list Uint8Array) :
  exists merged,
    _mergeChunks chunks = Ok merged
    /\ merged = concat chunks
    /\ Z.of_nat (length merged) = total_length chunks.
Proof.
  exists (concat chunks). split; [apply _mergeChunks_concat|].
  split; [reflexivity|]. symmetry. apply total_length_concat.
Qed.

(** ** What the reader throws *)

Lemma reader_error_suffix (s1 s : Uint8Array) (e : exn) :
  suffix s1 s -> reader_error s1 e -> reader_error s e.
Proof.
  intros [c ->] [H | [H | [H | [(b & Hb & H) | (t & b & Ht & Hb & H)]]]].
  - left. exact H.
  - right. left. exact H.
  - do 2 right. left. exact H.
  - do 3 right. left. exists b. split; [apply in_or_app; right; exact Hb | exact H].
  - do 4 right. exists t, b.
    split; [exact Ht | split; [apply in_or_app; right; exact Hb | exact H]].
Qed.

Lemma reader_error_slice_from (n : Z) (s : Uint8Array) (e : exn) :
  reader_error (slice_from n s) e -> reader_error s e.
Proof. apply reader_error_suffix. unfold slice_from. apply suffix_skipn. Qed.

Lemma index_0_head (s : Uint8Array) (v : Z) :
  index s 0 = Some v -> exists b : byte, In b s /\ v = byte_val b.
Proof.
  destruct s as [|b t]; [discriminate|]. rewrite index_cons_0.
  intros H. injection H as <-. exists b. split; [left; reflexivity | reflexivity].
Qed.

Lemma error_known {A : Type} (schema : item_type) (s : Uint8Array) (e : exn) :
  In schema header_types ->
  @error A schema (index s 0) = Throw e -> reader_error s e.
Proof.
  intros Hschema. unfold error.
  destruct (index s 0) as [v|] eqn:E; intros H; injection H as <-.
  - destruct (index_0_head s v E) as (b & Hb & ->).
    do 4 right. exists schema, b. split; [exact Hschema | split; [exact Hb | reflexivity]].
  - left. reflexivity.
Qed.

Lemma unknown_type_byte_known {A : Type} (s : Uint8Array) (e : exn) :
  @unknown_type_byte A (index s 0) = Throw e -> reader_error s e.
Proof.
  unfold unknown_type_byte. destruct (index s 0) as [v|] eqn:E; intros H;
    injection H as <-.
  - destruct (index_0_head s v E) as (b & Hb & ->).
    do 3 right. left. exists b. split; [exact Hb | reflexivity].
  - left. reflexivity.
Qed.

Lemma readBigInt_for_known (todo : nat) :
  forall i x s e, readBigInt_for todo i x s = Throw e -> e = TypeError.
Proof.
  induction todo as [|todo IH]; intros i x s e; cbn [readBigInt_for];
    [discriminate|].
  destruct (index s i); [apply IH|]. intros H. injection H as <-. reflexivity.
Qed.

Lemma _parseBigInt_known (schema : item_type) :
  In schema header_types -> throws_known (_parseBigInt schema).
Proof.
  intros Hschema s e. unfold _parseBigInt.
  destruct (negb _); [apply error_known; exact Hschema|].
  destruct (_ <? 0x18); [discriminate|].
  unfold readBigInt.
  destruct (readBigInt_for _ _ _ _) as [x|e'|] eqn:E; cbn [bind]; try discriminate.
  intros H. injection H as <-. apply readBigInt_for_known in E. subst e'.
  left. reflexivity.
Qed.

Lemma chunk_while_known f (fuel : nat) :
  throws_known f -> consuming f ->
  forall chunks sizes s e,
    chunk_while f fuel chunks sizes s = Throw e -> reader_error s e.
Proof.
  intros Hf Hc. induction fuel as [|fuel IH]; intros chunks sizes s e;
    cbn [chunk_while]; destruct (js_neq (index s 0) 255); try discriminate.
  destruct (f s) as [[chunk s1]|e'|] eqn:E; cbn [bind]; try discriminate.
  - intros H. apply IH in H.
    eapply reader_error_suffix; [eapply consuming_suffix; eassumption | exact H].
  - intros H. injection H as <-. eapply Hf; exact E.
Qed.

Lemma __parseByteString_known (fuel : nat) (schema : item_type) :
  In schema header_types -> throws_known (__parseByteString fuel schema).
Proof.
  intros Hschema. induction fuel as [|fuel IH]; intros s e; [discriminate|].
  cbn [__parseByteString].
  destruct (negb _); [apply error_known; exact Hschema|].
  destruct (_ =? 0x1f).
  - destruct (chunk_while _ _ _ _ _) as [[[chunks sizes] s1]|e'|] eqn:E;
      cbn [bind]; try discriminate.
    + rewrite _mergeChunks_concat. cbn [bind]. discriminate.
    + intros H. injection H as <-.
      apply (reader_error_slice_from 1).
      eapply chunk_while_known;
        [exact IH | apply __parseByteString_consuming | exact E].
  - destruct (_parseBigInt schema s) as [[n s1]|e'|] eqn:E; cbn [bind];
      try discriminate.
    intros H. injection H as <-. eapply _parseBigInt_known; eassumption.
Qed.

Lemma in_header_types_array : In Tarray header_types.
Proof. unfold header_types. simpl. tauto. Qed.

Lemma in_header_types_map : In Tmap header_types.
Proof. unfold header_types. simpl. tauto. Qed.

Section ItemLoopsKnown.
Variable f : Uint8Array -> result (CBORItem * Uint8Array).
Hypothesis Hf : throws_known f.
Hypothesis Hc : consuming f.

Lemma array_while_known (fuel : nat) :
  forall array_ s e, array_while f fuel array_ s = Throw e -> reader_error s e.
Proof.
  induction fuel as [|fuel IH]; intros array_ s e;
    cbn [array_while]; destruct (js_neq (index s 0) 255); try discriminate.
  destruct (f s) as [[item s1]|e'|] eqn:E; cbn [bind]; try discriminate.
  - intros H. apply IH in H.
    eapply reader_error_suffix; [eapply consuming_suffix; eassumption | exact H].
  - intros H. injection H as <-. eapply Hf; exact E.
Qed.

Lemma array_for_known (fuel : nat) :
  forall i n_ array_ s e, array_for f fuel i n_ array_ s = Throw e -> reader_error s e.
Proof.
  induction fuel as [|fuel IH]; intros i n_ array_ s e;
    cbn [array_for]; destruct (i <? n_); try discriminate.
  destruct (f s) as [[item s1]|e'|] eqn:E; cbn [bind]; try discriminate.
  - intros H. apply IH in H.
    eapply reader_error_suffix; [eapply consuming_suffix; eassumption | exact H].
  - intros H. injection H as <-. eapply Hf; exact E.
Qed.

Lemma map_while_known (fuel : nat) :
  forall map_ s e, map_while f fuel map_ s = Throw e -> reader_error s e.
Proof.
  induction fuel as [|fuel IH]; intros map_ s e;
    cbn [map_while]; destruct (js_neq (index s 0) 255); try discriminate.
  destruct (f s) as [[key s1]|e'|] eqn:E1; cbn [bind]; try discriminate.
  - apply (consuming_suffix f) in E1; [|exact Hc].
    destruct (f s1) as [[val s2]|e'|] eqn:E2; cbn [bind]; try discriminate.
    + intros H. apply IH in H.
      apply (consuming_suffix f) in E2; [|exact Hc].
      eapply reader_error_suffix; [exact E1|].
      eapply reader_error_suffix; [exact E2 | exact H].
    + intros H. injection H as <-.
      eapply reader_error_suffix; [exact E1 | eapply Hf; exact E2].
  - intros H. injection H as <-. eapply Hf; exact E1.
Qed.

Lemma map_for_known (fuel : nat) :
  forall i n_ map_ s e, map_for f fuel i n_ map_ s = Throw e -> reader_error s e.
Proof.
  induction fuel as [|fuel IH]; intros i n_ map_ s e;
    cbn [map_for]; destruct (i <? n_); try discriminate.
  destruct (f s) as [[key s1]|e'|] eqn:E1; cbn [bind]; try discriminate.
  - apply (consuming_suffix f) in E1; [|exact Hc].
    destruct (f s1) as [[val s2]|e'|] eqn:E2; cbn [bind]; try discriminate.
    + intros H. apply IH in H.
      apply (consuming_suffix f) in E2; [|exact Hc].
      eapply reader_error_suffix; [exact E1|].
      eapply reader_error_suffix; [exact E2 | exact H].
    + intros H. injection H as <-.
      eapply reader_error_suffix; [exact E1 | eapply Hf; exact E2].
  - intros H. injection H as <-. eapply Hf; exact E1.
Qed.

Lemma _parseArray_known (fuel : nat) : throws_known (_parseArray f fuel).
Proof.
  intros s e. unfold _parseArray.
  destruct (negb _); [apply error_known, in_header_types_array|].
  destruct (_ =? 0x1f).
  - destruct (array_while _ _ _ _) as [[array_ s1]|e'|] eqn:E; cbn [bind];
      try discriminate.
    intros H. injection H as <-.
    apply (reader_error_slice_from 1). eapply array_while_known; exact E.
  - destruct (_parseBigInt Tarray s) as [[n s1]|e'|] eqn:E; cbn [bind];
      try discriminate.
    + destruct (array_for _ _ _ _ _ _) as [[array_ s2]|e'|] eqn:E2; cbn [bind];
        try discriminate.
      intros H. injection H as <-.
      eapply reader_error_suffix;
        [eapply suffix_trans;
         [eapply _parseBigInt_suffix; exact E | apply suffix_tl]|].
      eapply array_for_known; exact E2.
    + intros H. injection H as <-.
      eapply _parseBigInt_known; [apply in_header_types_array | exact E].
Qed.

Lemma _parseMap_known (fuel : nat) : throws_known (_parseMap f fuel).
Proof.
  intros s e. unfold _parseMap.
  destruct (negb _); [apply error_known, in_header_types_map|].
  destruct (_ =? 0x1f).
  - destruct (map_while _ _ _ _) as [[map_ s1]|e'|] eqn:E; cbn [bind];
      try discriminate.
    intros H. injection H as <-.
    apply (reader_error_slice_from 1). eapply map_while_known; exact E.
  - destruct (_parseBigInt Tmap s) as [[n s1]|e'|] eqn:E; cbn [bind];
      try discriminate.
    + destruct (map_for _ _ _ _ _ _) as [[map_ s2]|e'|] eqn:E2; cbn [bind];
        try discriminate.
      intros H. injection H as <-.
      eapply reader_error_suffix;
        [eapply suffix_trans;
         [eapply _parseBigInt_suffix; exact E | apply suffix_tl]|].
      eapply map_for_known; exact E2.
    + intros H. injection H as <-.
      eapply _parseBigInt_known; [apply in_header_types_map | exact E].
Qed.

Lemma _parseTagged_known : throws_known (_parseTagged f).
Proof.
  intros s e. unfold _parseTagged.
  destruct (f (slice_from 1 s)) as [[inner s1]|e'|] eqn:E; cbn [bind];
    try discriminate.
  intros H. injection H as <-.
  apply (reader_error_slice_from 1). eapply Hf; exact E.
Qed.
End ItemLoopsKnown.

(** [_parseFloat] as [parse] calls it: on a header 0xf9, 0xfa or 0xfb. *)
Lemma _parseFloat_known (b : byte) (t : Uint8Array) (e : exn) :
  (Z.land (byte_val b) 0xf0 =? 0xf0) = true ->
  (Z.land (byte_val b) 0x0f =? 0x09) || (Z.land (byte_val b) 0x0f =? 0x0a)
  || (Z.land (byte_val b) 0x0f =? 0x0b) = true ->
  _parseFloat (b :: t) = Throw e -> reader_error (b :: t) e.
Proof.
  intros Hhi Hlo.
  destruct b; vm_compute in Hhi; try discriminate Hhi;
    vm_compute in Hlo; try discriminate Hlo;
    unfold _parseFloat; rewrite index_cons_0.
  - intros H. injection H as <-. do 2 right. left. reflexivity.
  - change (js_eq (Some (byte_val xfa)) 249) with false.
    change (js_eq (Some (byte_val xfa)) 250) with true. cbv iota.
    destruct (_ <? _); [|discriminate].
    intros H. injection H as <-. right. left. reflexivity.
  - change (js_eq (Some (byte_val xfb)) 249) with false.
    change (js_eq (Some (byte_val xfb)) 250) with false.
    change (js_eq (Some (byte_val xfb)) 251) with true. cbv iota.
    destruct (_ <? _); [|discriminate].
    intros H. injection H as <-. right. left. reflexivity.
Qed.

Lemma parse_known (fuel : nat) : throws_known (parse fuel).
Proof.
  induction fuel as [|fuel IH]; intros s e; [discriminate|].
  destruct s as [|b t]; [intros H; discriminate H|].
  cbn [parse]. rewrite index_cons_0. cbn [js_and].
  top_if.
  { unfold _parseUInt.
    destruct (_parseBigInt Tuint (b :: t)) as [[n s1]|e'|] eqn:E; cbn [bind];
      try discriminate.
    intros H. injection H as <-.
    eapply _parseBigInt_known; [|exact E]. unfold header_types. simpl. tauto. }
  top_if.
  { unfold _parseNegInt.
    destruct (_parseBigInt Tnint (b :: t)) as [[n s1]|e'|] eqn:E; cbn [bind];
      try discriminate.
    intros H. injection H as <-.
    eapply _parseBigInt_known; [|exact E]. unfold header_types. simpl. tauto. }
  top_if.
  { unfold _parseByteString.
    destruct (__parseByteString fuel Tbstr (b :: t)) as [[bytes s1]|e'|] eqn:E;
      cbn [bind]; try discriminate.
    intros H. injection H as <-.
    eapply __parseByteString_known; [|exact E]. unfold header_types. simpl. tauto. }
  top_if.
  { unfold _parseTextString.
    destruct (__parseByteString fuel Ttstr (b :: t)) as [[bytes s1]|e'|] eqn:E;
      cbn [bind]; try discriminate.
    intros H. injection H as <-.
    eapply __parseByteString_known; [|exact E]. unfold header_types. simpl. tauto. }
  top_if; [apply _parseArray_known; [exact IH | apply parse_consuming]|].
  top_if; [apply _parseMap_known; [exact IH | apply parse_consuming]|].
  top_if; [apply _parseTagged_known; exact IH|].
  top_if.
  - do 4 (top_if; [discriminate|]).
    top_if.
    + apply _parseFloat_known; assumption.
    + rewrite <- (index_cons_0 b t). apply unknown_type_byte_known.
  - rewrite <- (index_cons_0 b t). apply unknown_type_byte_known.
Qed.

(** X15: whatever [parse] throws on a stream is one of five failures: the
    "Unknown type byte" message with a byte that occurs in the stream, the
    "Expected <type>. Received" message with uint, nint, bstr, tstr, array
    or map as the type and a byte that occurs in the stream, the message
    for half-precision floats, or a [TypeError] or [RangeError] of the
    runtime.  In particular the "Unreachable" of [_parseFloat] is never
    thrown. *)
Theorem parse_throws_known_errors (fuel : nat) (s : Uint8Array) (e : exn) :
  parse fuel s = Throw e ->
  reader_error s e /\ e <> Thrown "Unreachable".
Proof.
  intros H. apply parse_known in H. split; [exact H|].
  destruct H as [-> | [-> | [-> | [(b & _ & ->) | (t & b & _ & _ & ->)]]]];
    discriminate.
Qed.

Lemma parse_throws_known_errors_9d :
  parse 3 [x82; x01; x9d] = Throw (Thrown "Expected array. Received: 9d")
  /\ reader_error [x82; x01; x9d] (Thrown "Expected array. Received: 9d")
  /\ Thrown "Expected array. Received: 9d" <> Thrown "Unreachable".
Proof.
  split; [reflexivity|].
  exact (parse_throws_known_errors
           3 [x82; x01; x9d] (Thrown "Expected array. Received: 9d") eq_refl).
Defined.
